(** * core/endorser/support.go: the endorser's SupportImpl

    A shallow embedding of [SupportImpl] and a verification of its
    behaviour: the ledger delegations ([GetTxSimulator],
    [GetLedgerHeight], ...), [CheckACL], and [Execute], which decorates
    a batch of chaincode inputs, starts one goroutine per input against
    a selected [ChaincodeSupport], and collects the results from three
    buffered channels.

    Go values are modelled as follows.
    - [string] is [string]; [[]byte] is [list byte]; [string(b)] is
      [string_of_list_byte].
    - [error] is [option string]: [None] is [nil], [Some m] an error whose
      [Error()] text is [m].
    - [map[string][]byte] is [gmap string (list byte)].
    - [*pb.ChaincodeInput] is an address into a store of objects, so that
      two slots of [inputs] may point at the same object.
    - a run-time panic (index out of range, nil dereference) is [None].
    - a buffered channel is a FIFO list with a capacity; goroutines are
      program counters advanced by an explicit schedule. *)

From Stdlib Require Import ZArith Lia.
From Stdlib Require Import Strings.String Strings.Byte.
From stdpp Require Import base tactics option list strings gmap.


(** ** Data *)

(** Go's [error]. *)
Definition error : Type := option string.

(** [errors.Wrap(err, msg)] and [errors.WithMessage(err, msg)] of
    github.com/pkg/errors: the text becomes [msg: cause]. *)
Definition wrap_message (cause : string) (msg : string) : string :=
  msg +:+ ": " +:+ cause.

(** [pb.ChaincodeInput]: the argument list and the decorations. *)
Record ChaincodeInput : Type := mkChaincodeInput {
  Args : list (list byte);
  Decorations : gmap string (list byte)
}.

(** [pb.Proposal]. *)
Record Proposal : Type := mkProposal {
  Header : list byte;
  Payload : list byte
}.

(** [ccprovider.TransactionParams], the fields the endorser sets. *)
Record TransactionParams : Type := mkTransactionParams {
  TxID : string;
  ChannelID : string;
  ProposalDecorations : gmap string (list byte)
}.

(** [chaincode.ChaincodeSupport]: one execution backend of the roster
    [SupportImpl.ChaincodeSupport]. *)
Record ChaincodeSupport : Type := mkChaincodeSupport {
  CCContainerName : string
}.

(** [ccprovider.CCContext]. *)
Record CCContext : Type := mkCCContext {
  Name : string;
  Version : string
}.

(** ** [Execute]: the version handed to the backend (lines 169-172) *)

Definition version2 (name version : string) (s : ChaincodeSupport) : string :=
  if bool_decide (name ≠ "cscc") && bool_decide (name ≠ "lscc")
  then version +:+ "-" +:+ CCContainerName s
  else version.

Definition cccid (name version : string) (s : ChaincodeSupport) : CCContext :=
  {| Name := name; Version := version2 name version s |}.

(** ** [Execute]: the backend chosen for an input (lines 162-166) *)

Definition GetConfigBlock : string := "GetConfigBlock".

(** [support := s.ChaincodeSupport[i]], replaced by the last element of
    the roster when [string(inputs[i].Args[0]) == "GetConfigBlock"].
    Both index expressions panic when out of range. *)
Definition select_support (roster : list ChaincodeSupport)
    (input : ChaincodeInput) (i : nat) : option ChaincodeSupport :=
  support ← roster !! i;
  arg0 ← Args input !! 0;
  if bool_decide (string_of_list_byte arg0 = GetConfigBlock)
  then roster !! (length roster - 1)
  else Some support.

(** ** [Execute]: the decoration pass (lines 145-153) *)

(** [decoration.Decorator]: [Decorate(proposal, input)] works on the object
    it is handed and returns it. *)
Definition Decorator : Type := Proposal → ChaincodeInput → ChaincodeInput.

(** One call of a decorator, as an instrumented registry would record it:
    the index of the input being decorated, the position of the decorator
    in the registry, and the arguments it received. *)
Record DecorateCall : Type := mkDecorateCall {
  dc_index : nat;
  dc_slot : nat;
  dc_proposal : Proposal;
  dc_input : ChaincodeInput
}.

(** Modelled from the spec: [decoration.Apply] lives in
    core/handlers/decoration, outside the sources at hand.  The spec gives
    its contract: the output is the same input with decorations populated by
    the registered decorators applied in a fixed registration order.
    [Apply_from k] runs the decorators registered at positions [k, k+1, ...]
    and also returns what each of them received. *)
Fixpoint Apply_from (k : nat) (proposal : Proposal) (input : ChaincodeInput)
    (decorators : list Decorator) : ChaincodeInput * list (nat * ChaincodeInput) :=
  match decorators with
  | [] => (input, [])
  | d :: rest =>
      let '(out, calls) := Apply_from (S k) proposal (d proposal input) rest in
      (out, (k, input) :: calls)
  end.

Definition Apply (proposal : Proposal) (input : ChaincodeInput)
    (decorators : list Decorator) : ChaincodeInput * list (nat * ChaincodeInput) :=
  Apply_from 0 proposal input decorators.

(** What the first loop of [Execute] changes: the objects behind [inputs],
    [txParams], and (instrumentation) the decorator calls made so far. *)
Record Decorated : Type := mkDecorated {
  d_store : gmap nat ChaincodeInput;
  d_txParams : TransactionParams;
  d_calls : list DecorateCall
}.

Definition clear_decorations (input : ChaincodeInput) : ChaincodeInput :=
  {| Args := Args input; Decorations := ∅ |}.

Definition set_ProposalDecorations (txParams : TransactionParams)
    (d : gmap string (list byte)) : TransactionParams :=
  {| TxID := TxID txParams; ChannelID := ChannelID txParams;
     ProposalDecorations := d |}.

(** The body of the loop at index [i]. [inputs[i]] is an address; writing
    [input.Decorations] through a nil address and reading [props[i]] out of
    range both panic. [inputs[i] = input] stores the same address back. *)
Definition decorate_at (decorators : list Decorator) (props : list Proposal)
    (inputs : list nat) (i : nat) (st : Decorated) : option Decorated :=
  p ← inputs !! i;
  input ← d_store st !! p;
  proposal ← props !! i;
  let '(out, calls) := Apply proposal (clear_decorations input) decorators in
  Some {| d_store := <[p := out]> (d_store st);
          d_txParams := set_ProposalDecorations (d_txParams st) (Decorations out);
          d_calls := d_calls st ++
                     ((λ c, mkDecorateCall i c.1 proposal c.2) <$> calls) |}.

Fixpoint decorate_loop (decorators : list Decorator) (props : list Proposal)
    (inputs : list nat) (indices : list nat) (st : Decorated) : option Decorated :=
  match indices with
  | [] => Some st
  | i :: rest =>
      st' ← decorate_at decorators props inputs i st;
      decorate_loop decorators props inputs rest st'
  end.

(** [for i, _ := range inputs { ... }] *)
Definition decorate (decorators : list Decorator) (props : list Proposal)
    (inputs : list nat) (h : gmap nat ChaincodeInput)
    (txParams : TransactionParams) : option Decorated :=
  decorate_loop decorators props inputs (seq 0 (length inputs))
    (mkDecorated h txParams []).

(** Auxiliary notions for the proofs about the pass. *)

(** What the decorators registered before position [k] make of an object
    whose decorations were cleared. *)
Definition decorated_by (decorators : list Decorator) (proposal : Proposal)
    (k : nat) (obj : ChaincodeInput) : ChaincodeInput :=
  foldl (λ x d, d proposal x) (clear_decorations obj) (take k decorators).

(** Two stores hold the same objects up to their decorations. *)
Definition same_but_decorations (h1 h2 : gmap nat ChaincodeInput) : Prop :=
  ∀ p, clear_decorations <$> h1 !! p = clear_decorations <$> h2 !! p.

(** ** [Execute]: starting the goroutines (lines 160-183) *)

(** The arguments [(i, support)] a goroutine is started with. *)
Record Task : Type := mkTask {
  t_index : nat;
  t_support : ChaincodeSupport
}.

Definition dispatch_at (roster : list ChaincodeSupport)
    (inputs : list nat) (h : gmap nat ChaincodeInput) (i : nat) : option Task :=
  p ← inputs !! i;
  input ← h !! p;
  support ← select_support roster input i;
  Some (mkTask i support).

Fixpoint dispatch_loop (roster : list ChaincodeSupport)
    (inputs : list nat) (h : gmap nat ChaincodeInput)
    (indices : list nat) : option (list Task) :=
  match indices with
  | [] => Some []
  | i :: rest =>
      t ← dispatch_at roster inputs h i;
      ts ← dispatch_loop roster inputs h rest;
      Some (t :: ts)
  end.

Definition dispatch (roster : list ChaincodeSupport)
    (inputs : list nat) (h : gmap nat ChaincodeInput) : option (list Task) :=
  dispatch_loop roster inputs h (seq 0 (length inputs)).

(** The call [s.Execute(txParams, cccid, inputs[index])] a goroutine makes. *)
Record BackendCall : Type := mkBackendCall {
  bc_support : ChaincodeSupport;
  bc_txParams : TransactionParams;
  bc_cccid : CCContext;
  bc_input : ChaincodeInput
}.

Definition task_call (txParams : TransactionParams) (name version : string)
    (inputs : list nat) (h : gmap nat ChaincodeInput) (t : Task) : option BackendCall :=
  p ← inputs !! t_index t;
  input ← h !! p;
  Some {| bc_support := t_support t;
          bc_txParams := txParams;
          bc_cccid := cccid name version (t_support t);
          bc_input := input |}.

(** Everything [Execute] does before it waits for results: decorate, then
    choose a backend and build the call for every index. *)
Definition prepare (roster : list ChaincodeSupport) (decorators : list Decorator)
    (txParams : TransactionParams) (name version : string)
    (props : list Proposal) (inputs : list nat) (h : gmap nat ChaincodeInput)
    : option (Decorated * list BackendCall) :=
  st ← decorate decorators props inputs h txParams;
  tasks ← dispatch roster inputs (d_store st);
  calls ← mapM (task_call (d_txParams st) name version inputs (d_store st)) tasks;
  Some (st, calls).

(** ** [Execute]: goroutines, channels and the collecting loop (lines 155-208) *)

Section Collector.
Context {Response ChaincodeEvent : Type}.

(** What one call [s.Execute(...)] of a backend returns. *)
Record Outcome : Type := mkOutcome {
  o_response : Response;
  o_event : ChaincodeEvent;
  o_err : error
}.

(** Where a goroutine stands: inside the backend call, or about to send
    on [cCCEvt], [cErr], [cRes] (in this order), or finished. *)
Inductive TaskPc : Type :=
| Calling
| SendEvent
| SendErr
| SendResponse
| Returned.

(** Where the [for { select { ... } }] loop stands. The numbers are
    instrumentation: which goroutine sent the value just received. *)
Inductive LoopPc : Type :=
| RecvErr
| RecvRes (from_err : nat)
| RecvEvt (from_err from_res : nat) (res : Response)
| Exited.

(** One round of the loop: the three values it received and who sent
    them (instrumentation). *)
Record Collected : Type := mkCollected {
  c_err_from : nat;
  c_err : error;
  c_res_from : nat;
  c_res : Response;
  c_evt_from : nat;
  c_evt : ChaincodeEvent
}.

(** Channel messages carry the index of the sending goroutine next to the
    value; the index is never inspected by the program. *)
Record State : Type := mkState {
  pcs : list TaskPc;
  cRes : list (nat * Response);
  cCCEvt : list (nat * ChaincodeEvent);
  cErr : list (nat * error);
  loop : LoopPc;
  resps : list Response;
  ccEvents : list ChaincodeEvent;
  err : error;
  collected : list Collected
}.

(** [make(chan T, 2)] *)
Definition capacity : nat := 2.

Definition init (n : nat) : State :=
  {| pcs := replicate n Calling;
     cRes := []; cCCEvt := []; cErr := [];
     loop := RecvErr;
     resps := []; ccEvents := []; err := None;
     collected := [] |}.

Definition with_pc (i : nat) (pc : TaskPc) (s : State) : State :=
  {| pcs := <[i := pc]> (pcs s);
     cRes := cRes s; cCCEvt := cCCEvt s; cErr := cErr s;
     loop := loop s; resps := resps s; ccEvents := ccEvents s;
     err := err s; collected := collected s |}.

Definition with_cCCEvt (q : list (nat * ChaincodeEvent)) (s : State) : State :=
  {| pcs := pcs s; cRes := cRes s; cCCEvt := q; cErr := cErr s;
     loop := loop s; resps := resps s; ccEvents := ccEvents s;
     err := err s; collected := collected s |}.

Definition with_cErr (q : list (nat * error)) (s : State) : State :=
  {| pcs := pcs s; cRes := cRes s; cCCEvt := cCCEvt s; cErr := q;
     loop := loop s; resps := resps s; ccEvents := ccEvents s;
     err := err s; collected := collected s |}.

Definition with_cRes (q : list (nat * Response)) (s : State) : State :=
  {| pcs := pcs s; cRes := q; cCCEvt := cCCEvt s; cErr := cErr s;
     loop := loop s; resps := resps s; ccEvents := ccEvents s;
     err := err s; collected := collected s |}.

(** One step of goroutine [i]. [outs !! i] is what its backend call
    returns, [Some None] when that call never returns. A send on a full
    channel is not enabled. *)
Definition step_task (outs : list (option Outcome)) (i : nat) (s : State)
    : option State :=
  pc ← pcs s !! i;
  o ← mjoin (outs !! i);
  match pc with
  | Calling => Some (with_pc i SendEvent s)
  | SendEvent =>
      if decide (length (cCCEvt s) < capacity)
      then Some (with_pc i SendErr (with_cCCEvt (cCCEvt s ++ [(i, o_event o)]) s))
      else None
  | SendErr =>
      if decide (length (cErr s) < capacity)
      then Some (with_pc i SendResponse (with_cErr (cErr s ++ [(i, o_err o)]) s))
      else None
  | SendResponse =>
      if decide (length (cRes s) < capacity)
      then Some (with_pc i Returned (with_cRes (cRes s ++ [(i, o_response o)]) s))
      else None
  | Returned => None
  end.

(** The end of a round, after [evt := <-cCCEvt]: both appends, the exit
    test, and only then the write to index 0. *)
Definition finish_round (n : nat) (from_err from_res : nat) (res : Response)
    (from_evt : nat) (evt : ChaincodeEvent)
    (q : list (nat * ChaincodeEvent)) (s : State) : State :=
  let resps' := resps s ++ [res] in
  let ccEvents' := ccEvents s ++ [evt] in
  let log := collected s ++ [mkCollected from_err (err s) from_res res from_evt evt] in
  if decide (n ≤ length resps')
  then {| pcs := pcs s; cRes := cRes s; cCCEvt := q; cErr := cErr s;
          loop := Exited; resps := resps'; ccEvents := ccEvents';
          err := err s; collected := log |}
  else if err s is Some _
  then {| pcs := pcs s; cRes := cRes s; cCCEvt := q; cErr := cErr s;
          loop := RecvErr;
          resps := <[0 := res]> resps'; ccEvents := <[0 := evt]> ccEvents';
          err := err s; collected := log |}
  else {| pcs := pcs s; cRes := cRes s; cCCEvt := q; cErr := cErr s;
          loop := RecvErr; resps := resps'; ccEvents := ccEvents';
          err := err s; collected := log |}.

(** One step of the collecting loop; [n] is [len(inputs)]. A receive on
    an empty channel is not enabled. *)
Definition step_loop (n : nat) (s : State) : option State :=
  match loop s with
  | RecvErr =>
      match cErr s with
      | [] => None
      | (i, e) :: q =>
          Some {| pcs := pcs s; cRes := cRes s; cCCEvt := cCCEvt s; cErr := q;
                  loop := RecvRes i; resps := resps s; ccEvents := ccEvents s;
                  err := e; collected := collected s |}
      end
  | RecvRes ie =>
      match cRes s with
      | [] => None
      | (j, r) :: q =>
          Some {| pcs := pcs s; cRes := q; cCCEvt := cCCEvt s; cErr := cErr s;
                  loop := RecvEvt ie j r; resps := resps s; ccEvents := ccEvents s;
                  err := err s; collected := collected s |}
      end
  | RecvEvt ie jr r =>
      match cCCEvt s with
      | [] => None
      | (k, v) :: q => Some (finish_round n ie jr r k v q s)
      end
  | Exited => None
  end.

(** The scheduler's choices. *)
Inductive Action : Type :=
| Run (i : nat)
| Collect.

Definition step (outs : list (option Outcome)) (a : Action) (s : State)
    : option State :=
  match a with
  | Run i => step_task outs i s
  | Collect => step_loop (length outs) s
  end.

(** An interleaving: every action must be enabled when its turn comes. *)
Fixpoint exec (outs : list (option Outcome)) (sched : list Action) (s : State)
    : option State :=
  match sched with
  | [] => Some s
  | a :: rest => s' ← step outs a s; exec outs rest s'
  end.

(** [return resps, ccEvents, err], reached only through [break EXIT]. *)
Definition returned (s : State)
    : option (list Response * list ChaincodeEvent * error) :=
  match loop s with
  | Exited => Some (resps s, ccEvents s, err s)
  | _ => None
  end.

(** The loop seen on its own, as a function of the rounds it reads: the
    state after the rounds [log], or the state at [break EXIT]. *)
Definition round (n : nat)
    (acc : list Response * list ChaincodeEvent * error * bool)
    (c : error * Response * ChaincodeEvent)
    : list Response * list ChaincodeEvent * error * bool :=
  let '(rs, es, e0, done) := acc in
  let '(e, r, v) := c in
  if done then acc
  else
    let rs' := rs ++ [r] in
    let es' := es ++ [v] in
    if decide (n ≤ length rs') then (rs', es', e, true)
    else if e is Some _ then (<[0 := r]> rs', <[0 := v]> es', e, false)
    else (rs', es', e, false).

Definition aggregate (n : nat) (log : list (error * Response * ChaincodeEvent))
    : list Response * list ChaincodeEvent * error * bool :=
  foldl (round n) ([], [], None : error, false) log.

Definition triple (c : Collected) : error * Response * ChaincodeEvent :=
  (c_err c, c_res c, c_evt c).

(** A round is aligned when its three values come from one goroutine. *)
Definition aligned (c : Collected) : Prop :=
  c_err_from c = c_res_from c ∧ c_res_from c = c_evt_from c.

(** The schedule in which goroutine [i] runs to completion and the loop
    then reads its three values, for each [i] of [order] in turn. *)
Definition one_by_one (order : list nat) : list Action :=
  i ← order; [Run i; Run i; Run i; Run i; Collect; Collect; Collect].

(** *** Auxiliary notions for the proofs *)

Implicit Types s : State.
Implicit Types outs : list (option Outcome).

(** The goroutine has sent its event, its error, its response. *)
Definition past_evt (pc : TaskPc) : bool :=
  match pc with SendErr | SendResponse | Returned => true | _ => false end.

Definition past_err (pc : TaskPc) : bool :=
  match pc with SendResponse | Returned => true | _ => false end.

Definition past_res (pc : TaskPc) : bool :=
  match pc with Returned => true | _ => false end.

(** The goroutines, numbered from [base], whose program counter satisfies
    [P]. *)
Fixpoint ids_where (P : TaskPc → bool) (base : nat) (l : list TaskPc) : list nat :=
  match l with
  | [] => []
  | pc :: rest => (if P pc then [base] else []) ++ ids_where P (S base) rest
  end.

(** Steps a goroutine still has to take. *)
Definition weight (pc : TaskPc) : nat :=
  match pc with
  | Calling => 4 | SendEvent => 3 | SendErr => 2 | SendResponse => 1 | Returned => 0
  end.

(** Program counters can be compared. *)
#[global] Instance TaskPc_eq_dec : EqDecision TaskPc.
Proof. solve_decision. Defined.

(** The sender of the error the loop has received in the round it is in
    the middle of. *)
Definition pending_err (l : LoopPc) : list nat :=
  match l with
  | RecvRes ie => [ie]
  | RecvEvt ie _ _ => [ie]
  | _ => []
  end.

(** Likewise for the response. *)
Definition pending_res (l : LoopPc) : list nat :=
  match l with
  | RecvEvt _ jr _ => [jr]
  | _ => []
  end.

(** Every value sent is either still in its channel or has been received
    exactly once; the collections grow by one per round; the loop has left
    exactly when [n] rounds are complete. *)
Record counted (n : nat) s : Prop := mkCounted {
  cnt_pcs : length (pcs s) = n;
  cnt_evt : (cCCEvt s).*1 ++ (c_evt_from <$> collected s)
            ≡ₚ ids_where past_evt 0 (pcs s);
  cnt_err : (cErr s).*1 ++ pending_err (loop s) ++ (c_err_from <$> collected s)
            ≡ₚ ids_where past_err 0 (pcs s);
  cnt_res : (cRes s).*1 ++ pending_res (loop s) ++ (c_res_from <$> collected s)
            ≡ₚ ids_where past_res 0 (pcs s);
  cnt_resps : length (resps s) = length (collected s);
  cnt_ccEvents : length (ccEvents s) = length (collected s);
  cnt_exit : if loop s is Exited then length (collected s) = n
             else length (collected s) < n;
  cnt_cap : length (cCCEvt s) ≤ capacity ∧ length (cErr s) ≤ capacity ∧
            length (cRes s) ≤ capacity
}.

(** Receives the loop still has to make before it leaves. *)
Definition loop_weight (n : nat) s : nat :=
  match loop s with
  | RecvErr => 3 * (n - length (collected s))
  | RecvRes _ => 3 * (n - length (collected s)) - 1
  | RecvEvt _ _ _ => 3 * (n - length (collected s)) - 2
  | Exited => 0
  end.

(** Steps left until every goroutine has returned and the loop has left. *)
Definition measure (n : nat) s : nat :=
  sum_list (weight <$> pcs s) + loop_weight n s.

(** [v] is the [field] of what the backend of goroutine [i] returned. *)
Definition sent_by outs {V : Type} (field : Outcome → V)
    (i : nat) (v : V) : Prop :=
  field <$> mjoin (outs !! i) = Some v.

(** The three values of a round are those of the goroutines recorded as
    their senders. *)
Definition genuine outs (c : Collected) : Prop :=
  sent_by outs o_err (c_err_from c) (c_err c) ∧
  sent_by outs o_response (c_res_from c) (c_res c) ∧
  sent_by outs o_event (c_evt_from c) (c_evt c).

(** Every value in a channel, held by the loop or recorded in a round is
    the one its sender got from its backend. *)
Record valued outs s : Prop := mkValued {
  val_evt : Forall (λ m, sent_by outs o_event m.1 m.2) (cCCEvt s);
  val_err : Forall (λ m, sent_by outs o_err m.1 m.2) (cErr s);
  val_res : Forall (λ m, sent_by outs o_response m.1 m.2) (cRes s);
  val_log : Forall (genuine outs) (collected s);
  val_loop : match loop s with
             | RecvRes ie => sent_by outs o_err ie (err s)
             | RecvEvt ie jr r =>
                 sent_by outs o_err ie (err s) ∧ sent_by outs o_response jr r
             | _ => True
             end
}.

(** The variables of the loop are the fold of [round] over the rounds read
    so far. *)
Definition aggregated (n : nat) s : Prop :=
  match loop s with
  | RecvErr =>
      aggregate n (triple <$> collected s) = (resps s, ccEvents s, err s, false)
  | Exited =>
      aggregate n (triple <$> collected s) = (resps s, ccEvents s, err s, true)
  | _ => ∃ e0,
      aggregate n (triple <$> collected s) = (resps s, ccEvents s, e0, false)
  end.

(** The round the loop reads when goroutine [i], whose backend returned
    [o], has sent its three values and nothing else is in the channels. *)
Definition own_round (i : nat) (o : Outcome) : Collected :=
  mkCollected i (o_err o) i (o_response o) i (o_event o).

(** What the loop reads of an outcome: the error, the response, the event. *)
Definition outcome_triple (o : Outcome) : error * Response * ChaincodeEvent :=
  (o_err o, o_response o, o_event o).

End Collector.

Arguments Outcome : clear implicits.
Arguments State : clear implicits.
Arguments Collected : clear implicits.
Arguments LoopPc : clear implicits.

(** ** [Execute] as a whole *)

Section Execute.
Context {Response ChaincodeEvent : Type}.

(** What the backend answers to a call; [None] when the call never returns. *)
Variable backend : BackendCall → option (Outcome Response ChaincodeEvent).

(** [Execute] under the interleaving [sched]: [None] when it panics, or when
    [sched] is not an interleaving that ends with the [return]. *)
Definition Execute (roster : list ChaincodeSupport) (decorators : list Decorator)
    (txParams : TransactionParams) (name version : string)
    (props : list Proposal) (inputs : list nat) (h : gmap nat ChaincodeInput)
    (sched : list Action)
    : option (list Response * list ChaincodeEvent * error) :=
  prepared ← prepare roster decorators txParams name version props inputs h;
  s ← exec (backend <$> prepared.2) sched (init (length inputs));
  returned s.

End Execute.

(** ** The ledger delegations (lines 41-108) *)

Section Ledger.
Context {PeerLedger TxSimulator HistoryQueryExecutor ProcessedTransaction : Type}.

(** [common.BlockchainInfo]; [Height] is a [uint64]. *)
Record BlockchainInfo : Type := mkBlockchainInfo {
  Height : N
}.

(** The collaborators: [peer.Operations.GetLedger] and the methods of the
    [ledger.PeerLedger] it returns ([None]: the nil ledger). A method returns
    its Go result pair; a nil pointer or interface result is [None]. *)
Record PeerOperations : Type := mkPeerOperations {
  GetLedger : string → option PeerLedger;
  NewTxSimulator : PeerLedger → string → option TxSimulator * error;
  NewHistoryQueryExecutor : PeerLedger → option HistoryQueryExecutor * error;
  ledger_GetTransactionByID : PeerLedger → string → option ProcessedTransaction * error;
  GetBlockchainInfo : PeerLedger → option BlockchainInfo * error
}.

(** The calls made on the collaborators, in order. *)
Inductive Call : Type :=
| CallGetLedger (channel : string)
| CallNewTxSimulator (txid : string)
| CallNewHistoryQueryExecutor
| CallGetTransactionByID (txID : string)
| CallGetBlockchainInfo.

(** Computations that record their calls and may panic. *)
Definition Calls (A : Type) : Type := list Call → option (A * list Call).

Definition ret {A : Type} (a : A) : Calls A := λ log, Some (a, log).

Definition bind {A B : Type} (m : Calls A) (k : A → Calls B) : Calls B :=
  λ log, match m log with
         | Some (a, log') => k a log'
         | None => None
         end.

Definition call {A : Type} (c : Call) (result : A) : Calls A :=
  λ log, Some (result, log ++ [c]).

Definition panic {A : Type} : Calls A := λ _, None.

Notation "'let*' x := m 'in' k" := (bind m (λ x, k))
  (at level 10, x name, m at level 100, k at level 200).

Definition run {A : Type} (m : Calls A) : option (A * list Call) := m [].

Variable Peer : PeerOperations.

Definition NewQueryCreator (channel : string) : Calls (option PeerLedger * error) :=
  let* lgr := call (CallGetLedger channel) (GetLedger Peer channel) in
  match lgr with
  | None => ret (None, Some ("channel " +:+ channel +:+ " doesn't exist"))
  | Some l => ret (Some l, None)
  end.

Definition GetTxSimulator (ledgername txid : string)
    : Calls (option TxSimulator * error) :=
  let* lgr := call (CallGetLedger ledgername) (GetLedger Peer ledgername) in
  match lgr with
  | None => ret (None, Some ("Channel does not exist: " +:+ ledgername))
  | Some l => call (CallNewTxSimulator txid) (NewTxSimulator Peer l txid)
  end.

Definition GetHistoryQueryExecutor (ledgername : string)
    : Calls (option HistoryQueryExecutor * error) :=
  let* lgr := call (CallGetLedger ledgername) (GetLedger Peer ledgername) in
  match lgr with
  | None => ret (None, Some ("Channel does not exist: " +:+ ledgername))
  | Some l => call CallNewHistoryQueryExecutor (NewHistoryQueryExecutor Peer l)
  end.

Definition GetTransactionByID (chid txID : string)
    : Calls (option ProcessedTransaction * error) :=
  let* lgr := call (CallGetLedger chid) (GetLedger Peer chid) in
  match lgr with
  | None => ret (None, Some ("failed to look up the ledger for Channel " +:+ chid))
  | Some l =>
      let* r := call (CallGetTransactionByID txID) (ledger_GetTransactionByID Peer l txID) in
      match r.2 with
      | Some e => ret (None, Some (wrap_message e "GetTransactionByID failed"))
      | None => ret (r.1, None)
      end
  end.

Definition GetLedgerHeight (channelID : string) : Calls (N * error) :=
  let* lgr := call (CallGetLedger channelID) (GetLedger Peer channelID) in
  match lgr with
  | None =>
      ret (0%N, Some ("failed to look up the ledger for Channel " +:+ channelID))
  | Some l =>
      let* r := call CallGetBlockchainInfo (GetBlockchainInfo Peer l) in
      match r.2 with
      | Some e =>
          ret (0%N, Some (wrap_message e
                 ("failed to obtain information for Channel " +:+ channelID)))
      | None =>
          match r.1 with
          | Some info => ret (Height info, None)
          | None => panic
          end
      end
  end.

End Ledger.

(** ** [CheckACL] (lines 219-221) *)

Section ACL.
Context {SignedProposal SignatureHeader ChaincodeHeaderExtension : Type}.

(** [common.ChannelHeader] of protos/common. *)
Record ChannelHeader : Type := mkChannelHeader {
  ch_Type : Z;
  ch_Version : Z;
  ch_Timestamp : Z;
  ChannelId : string;
  ch_TxId : string;
  ch_Epoch : N;
  ch_Extension : list byte;
  ch_TlsCertHash : list byte
}.

(** [resources.Peer_Propose] of core/aclmgmt/resources. *)
Definition Peer_Propose : string := "peer/Propose".

(** [s.ACLProvider.CheckACL(resName, channelID, idinfo)]. *)
Variable ACLProvider : string → string → SignedProposal → error.

(** [chdr], [shdr] and [hdrext] are pointers; reading [chdr.ChannelId]
    through nil panics. *)
Definition CheckACL (signedProp : SignedProposal) (chdr : option ChannelHeader)
    (shdr : option SignatureHeader) (hdrext : option ChaincodeHeaderExtension)
    : option error :=
  c ← chdr;
  Some (ACLProvider Peer_Propose (ChannelId c) signedProp).

End ACL.

(** ** Chaincode packages: [GetChaincodeDeploymentSpecFS] (lines 117-124)
       and [IsJavaCC] (lines 225-233) *)

(** [pb.ChaincodeSpec_Type] of protos/peer. *)
Inductive ChaincodeSpec_Type : Type :=
| ChaincodeSpec_UNDEFINED
| ChaincodeSpec_GOLANG
| ChaincodeSpec_NODE
| ChaincodeSpec_CAR
| ChaincodeSpec_JAVA.

#[global] Instance ChaincodeSpec_Type_eq_dec : EqDecision ChaincodeSpec_Type.
Proof. solve_decision. Defined.

(** [pb.ChaincodeID]. *)
Record ChaincodeID : Type := mkChaincodeID {
  cid_Path : string;
  cid_Name : string;
  cid_Version : string
}.

(** [pb.ChaincodeSpec], the fields read here; [ChaincodeId] is a pointer. *)
Record ChaincodeSpec : Type := mkChaincodeSpec {
  cs_Type : ChaincodeSpec_Type;
  ChaincodeId : option ChaincodeID
}.

(** [pb.ChaincodeDeploymentSpec]; [ChaincodeSpec] is a pointer. *)
Record ChaincodeDeploymentSpec : Type := mkChaincodeDeploymentSpec {
  cds_ChaincodeSpec : option ChaincodeSpec;
  CodePackage : list byte
}.

Section Packages.
Context {CCPackage : Type}.

(** The collaborators in core/common/ccprovider: the two package readers
    and the method [GetDepSpec] of the [CCPackage] they return ([None]: the
    nil interface, the nil pointer). *)
Record PackageReader : Type := mkPackageReader {
  GetChaincodeFromFS : string → string → option CCPackage * error;
  GetCCPackage : list byte → option CCPackage * error;
  GetDepSpec : CCPackage → option ChaincodeDeploymentSpec
}.

Variable ccprovider : PackageReader.

(** The arguments [cds.ChaincodeSpec.ChaincodeId.Name] and [.Version] are
    read through three pointers before the file system is looked at;
    [errors.Wrapf] puts its text in front of the cause. *)
Definition GetChaincodeDeploymentSpecFS (cds : option ChaincodeDeploymentSpec)
    : option (option ChaincodeDeploymentSpec * error) :=
  d ← cds;
  spec ← cds_ChaincodeSpec d;
  id ← ChaincodeId spec;
  let '(ccpack, err) := GetChaincodeFromFS ccprovider (cid_Name id) (cid_Version id) in
  match err with
  | Some e => Some (None, Some (wrap_message e "could not get chaincode from fs"))
  | None => pack ← ccpack; Some (GetDepSpec ccprovider pack, None)
  end.

(** [cds.ChaincodeSpec.Type] is read through two pointers. *)
Definition IsJavaCC (buf : list byte) : option (bool * error) :=
  let '(ccpack, err) := GetCCPackage ccprovider buf in
  match err with
  | Some e => Some (false, Some e)
  | None =>
      pack ← ccpack;
      cds ← GetDepSpec ccprovider pack;
      spec ← cds_ChaincodeSpec cds;
      Some (bool_decide (cs_Type spec = ChaincodeSpec_JAVA), None)
  end.

End Packages.

(** ** [ExecuteLegacyInit] (lines 127-134) *)

Section LegacyInit.
Context {SignedProposal Result : Type}.

(** The call [support.ExecuteLegacyInit(txParams, cccid, cds)]. *)
Record LegacyInitCall : Type := mkLegacyInitCall {
  lic_support : ChaincodeSupport;
  lic_txParams : TransactionParams;
  lic_cccid : CCContext;
  lic_cds : option ChaincodeDeploymentSpec
}.

(** What the backend answers: the triple (response, event, error). *)
Variable backend_init : LegacyInitCall → Result.

(** [s.ChaincodeSupport[0]] panics on an empty roster. *)
Definition ExecuteLegacyInit (roster : list ChaincodeSupport)
    (txParams : TransactionParams) (cid name version txid : string)
    (signedProp : option SignedProposal) (prop : option Proposal)
    (cds : option ChaincodeDeploymentSpec) : option Result :=
  let cccid := {| Name := name; Version := version |} in
  support ← roster !! 0;
  Some (backend_init {| lic_support := support; lic_txParams := txParams;
                        lic_cccid := cccid; lic_cds := cds |}).

End LegacyInit.

(** ** Sample data *)

(** A decorator that files the payload of the proposal under [key]. *)
Definition stamp (key : string) : Decorator :=
  λ proposal input,
    {| Args := Args input;
       Decorations := <[key := Payload proposal]> (Decorations input) |}.

(** A batch of two inputs; the caller left a decoration on the first. *)
Definition sample_props : list Proposal :=
  [mkProposal [] (list_byte_of_string "first");
   mkProposal [] (list_byte_of_string "second")].

Definition sample_store : gmap nat ChaincodeInput :=
  {[ 10 := mkChaincodeInput [list_byte_of_string "invoke"]
             {[ "stale" := list_byte_of_string "x" ]};
     11 := mkChaincodeInput [list_byte_of_string "query"] ∅ ]}.

Definition sample_txParams : TransactionParams := mkTransactionParams "tx1" "ch1" ∅.

Definition sample_roster : list ChaincodeSupport :=
  [mkChaincodeSupport "peer0"; mkChaincodeSupport "peer1"; mkChaincodeSupport "peer2"].

(** A peer with the single channel [mychannel]. *)
Definition one_channel_peer : @PeerOperations unit unit unit unit :=
  {| GetLedger := λ c, if bool_decide (c = "mychannel") then Some () else None;
     NewTxSimulator := λ _ _, (Some (), None);
     NewHistoryQueryExecutor := λ _, (Some (), None);
     ledger_GetTransactionByID := λ _ _, (Some (), None);
     GetBlockchainInfo := λ _, (Some (mkBlockchainInfo 5), None) |}.

(** A provider that admits the creator [alice] on [mychannel] only. *)
Definition sample_provider (resource channel creator : string) : error :=
  if bool_decide (channel = "mychannel") && bool_decide (creator = "alice")
  then None else Some ("access denied for " +:+ resource).

(** Two inputs; the backend of the first one fails. *)
Definition first_fails : list (option (Outcome string string)) :=
  [Some (mkOutcome "R0" "E0" (Some "boom")); Some (mkOutcome "R1" "E1" None)].

(** Two inputs, both backends succeed. *)
Definition both_succeed : list (option (Outcome string string)) :=
  [Some (mkOutcome "R0" "E0" None); Some (mkOutcome "R1" "E1" None)].

(** Three inputs; the backend of the second one fails. *)
Definition second_of_three_fails : list (option (Outcome string string)) :=
  [Some (mkOutcome "R0" "E0" None); Some (mkOutcome "R1" "E1" (Some "boom"));
   Some (mkOutcome "R2" "E2" None)].

(** A peer whose ledger of [mychannel] fails every request. *)
Definition failing_peer : @PeerOperations unit unit unit unit :=
  {| GetLedger := λ c, if bool_decide (c = "mychannel") then Some () else None;
     NewTxSimulator := λ _ _, (None, Some "closed");
     NewHistoryQueryExecutor := λ _, (None, Some "closed");
     ledger_GetTransactionByID := λ _ _, (Some (), Some "no such tx");
     GetBlockchainInfo := λ _, (Some (mkBlockchainInfo 5), Some "closed") |}.

(** Two inputs; the backend call of the second one never returns. *)
Definition second_hangs : list (option (Outcome string string)) :=
  [Some (mkOutcome "R0" "E0" None); None].

(** A backend that answers with the container name of the backend chosen
    and the version it was handed. *)
Definition sample_backend (c : BackendCall) : option (Outcome string string) :=
  Some (mkOutcome (CCContainerName (bc_support c)) (Version (bc_cccid c)) None).

(** A package store that holds version 1.0 of the Java chaincode [mycc]. *)
Definition sample_reader : @PackageReader unit :=
  {| GetChaincodeFromFS := λ name version,
       if bool_decide (name = "mycc") && bool_decide (version = "1.0")
       then (Some (), None) else (None, Some "not found");
     GetCCPackage := λ _, (Some (), None);
     GetDepSpec := λ _,
       Some (mkChaincodeDeploymentSpec
               (Some (mkChaincodeSpec ChaincodeSpec_JAVA
                        (Some (mkChaincodeID "" "mycc" "1.0")))) []) |}.

(** * Properties *)

(** ** The version handed to the backend *)

Lemma length_append (a b : string) :
  String.length (a +:+ b) = String.length a + String.length b.
Proof. induction a as [|c a IH]; simpl; [done | by rewrite IH]. Qed.

Lemma append_dash_neq (version tag : string) :
  version ≠ version +:+ "-" +:+ tag.
Proof.
  intros H. apply (f_equal String.length) in H.
  rewrite !length_append in H. simpl in H. lia.
Qed.

Lemma version2_reserved (name version : string) (s : ChaincodeSupport) :
  name = "cscc" ∨ name = "lscc" → version2 name version s = version.
Proof. intros [-> | ->]; reflexivity. Qed.

Lemma version2_ordinary (name version : string) (s : ChaincodeSupport) :
  name ≠ "cscc" → name ≠ "lscc" →
  version2 name version s = version +:+ "-" +:+ CCContainerName s.
Proof.
  intros H1 H2. unfold version2.
  by rewrite !bool_decide_eq_true_2.
Qed.

(** C3, as the code has it: the goroutine started with [(index, s)] hands
    the backend a context whose name is the chaincode name and whose version
    is the caller's version when the name is cscc or lscc, and the caller's
    version followed by a dash and the container name of [s] otherwise; the
    container name is appended exactly for the names other than cscc and
    lscc. *)
Theorem version_passed_to_backend (txParams : TransactionParams)
    (name version : string) (inputs : list nat)
    (h : gmap nat ChaincodeInput) (t : Task) (c : BackendCall) :
  task_call txParams name version inputs h t = Some c →
  bc_support c = t_support t ∧
  Name (bc_cccid c) = name ∧
  Version (bc_cccid c) =
    (if bool_decide (name = "cscc" ∨ name = "lscc") then version
     else version +:+ "-" +:+ CCContainerName (t_support t)) ∧
  (Version (bc_cccid c) = version +:+ "-" +:+ CCContainerName (t_support t)
   ↔ name ≠ "cscc" ∧ name ≠ "lscc").
Proof.
  unfold task_call. intros H.
  destruct (inputs !! t_index t) as [p|]; [|done]. simpl in H.
  destruct (h !! p) as [input|]; [|done]. simpl in H.
  injection H as <-. simpl.
  split; [done|]. split; [done|].
  case_bool_decide as Hn.
  - rewrite (version2_reserved _ _ _ Hn). split; [done|]. split.
    + intros E. by apply append_dash_neq in E.
    + intros [H1 H2]. destruct Hn; contradiction.
  - assert (name ≠ "cscc" ∧ name ≠ "lscc") as [H1 H2].
    { split; intros ->; apply Hn; auto. }
    rewrite (version2_ordinary _ _ _ H1 H2). done.
Qed.

Lemma version_passed_to_backend_witness :
  ∃ c, task_call (mkTransactionParams "tx1" "ch1" ∅) "mycc" "1.0" [7]
         {[ 7 := mkChaincodeInput [] ∅ ]} (mkTask 0 (mkChaincodeSupport "peer0"))
       = Some c
       ∧ Version (bc_cccid c) = "1.0-peer0".
Proof.
  eexists. split; [reflexivity|].
  pose proof (version_passed_to_backend
    (mkTransactionParams "tx1" "ch1" ∅) "mycc" "1.0" [7]
    {[ 7 := mkChaincodeInput [] ∅ ]} (mkTask 0 (mkChaincodeSupport "peer0"))
    _ eq_refl) as (_ & _ & Hv & _).
  exact Hv.
Defined.

(** C3 as the spec words it fails: for the reserved name cscc nothing is
    appended, and for an ordinary name the container name is. *)
Lemma reserved_name_gets_no_container_tag :
  version2 "cscc" "1.0" (mkChaincodeSupport "peer0") = "1.0" ∧
  version2 "cscc" "1.0" (mkChaincodeSupport "peer0") ≠ "1.0" +:+ "-" +:+ "peer0" ∧
  version2 "lscc" "1.0" (mkChaincodeSupport "peer0") ≠ "1.0" +:+ "-" +:+ "peer0" ∧
  version2 "mycc" "1.0" (mkChaincodeSupport "peer0") = "1.0" +:+ "-" +:+ "peer0" ∧
  version2 "mycc" "1.0" (mkChaincodeSupport "peer0") ≠ "1.0".
Proof. repeat split; try reflexivity; discriminate. Qed.

(** ** The backend chosen for an input *)

Lemma dispatch_loop_lookup (roster : list ChaincodeSupport) (inputs : list nat)
    (h : gmap nat ChaincodeInput) (indices : list nat) (tasks : list Task)
    (k i : nat) :
  dispatch_loop roster inputs h indices = Some tasks →
  indices !! k = Some i →
  tasks !! k = dispatch_at roster inputs h i.
Proof.
  revert tasks k. induction indices as [|j rest IH]; intros tasks k H Hk; [done|].
  simpl in H.
  destruct (dispatch_at roster inputs h j) as [t|] eqn:Ht; [|done]. simpl in H.
  destruct (dispatch_loop roster inputs h rest) as [ts|] eqn:Hts; [|done].
  simpl in H. injection H as <-.
  destruct k as [|k]; simpl in *.
  - by injection Hk as <-.
  - by apply IH.
Qed.

Lemma dispatch_loop_length (roster : list ChaincodeSupport) (inputs : list nat)
    (h : gmap nat ChaincodeInput) (indices : list nat) (tasks : list Task) :
  dispatch_loop roster inputs h indices = Some tasks →
  length tasks = length indices.
Proof.
  revert tasks. induction indices as [|j rest IH]; intros tasks H; simpl in H.
  - by injection H as <-.
  - destruct (dispatch_at roster inputs h j) as [t|]; [|done]. simpl in H.
    destruct (dispatch_loop roster inputs h rest) as [ts|]; [|done].
    simpl in H. injection H as <-. simpl. f_equal. by apply IH.
Qed.

(** C4: with a roster at least as long as the batch, the goroutine for
    index [i] is started with the last backend of the roster when the first
    argument of [inputs[i]] is the text GetConfigBlock, whatever [i] is, and
    with the backend at position [i] otherwise. *)
Theorem backend_for_index (roster : list ChaincodeSupport) (inputs : list nat)
    (h : gmap nat ChaincodeInput) (i p : nat) (input : ChaincodeInput)
    (arg0 : list byte) :
  length inputs ≤ length roster →
  inputs !! i = Some p →
  h !! p = Some input →
  Args input !! 0 = Some arg0 →
  ∃ at_i at_last,
    roster !! i = Some at_i ∧
    last roster = Some at_last ∧
    let chosen :=
      if bool_decide (string_of_list_byte arg0 = "GetConfigBlock")
      then at_last else at_i in
    dispatch_at roster inputs h i = Some (mkTask i chosen) ∧
    ∀ tasks, dispatch roster inputs h = Some tasks →
             tasks !! i = Some (mkTask i chosen).
Proof.
  intros Hlen Hi Hp Ha.
  assert (i < length roster) as Hir by (apply lookup_lt_Some in Hi; lia).
  destruct (lookup_lt_is_Some_2 roster i Hir) as [at_i Hati].
  assert (is_Some (last roster)) as [at_last Hlast].
  { apply last_is_Some. intros ->. simpl in Hir. lia. }
  exists at_i, at_last. split; [done|]. split; [done|].
  assert (dispatch_at roster inputs h i = Some (mkTask i
    (if bool_decide (string_of_list_byte arg0 = "GetConfigBlock")
     then at_last else at_i))) as Hd.
  { unfold dispatch_at, select_support. rewrite Hi. simpl. rewrite Hp. simpl.
    rewrite Hati. simpl. rewrite Ha. simpl. unfold GetConfigBlock.
    case_bool_decide; simpl; [|done].
    rewrite last_lookup in Hlast.
    replace (length roster - 1) with (pred (length roster)) by lia.
    by rewrite Hlast. }
  simpl. split; [done|].
  intros tasks Ht. rewrite <- Hd.
  eapply dispatch_loop_lookup; [exact Ht|].
  apply lookup_seq. apply lookup_lt_Some in Hi. lia.
Qed.

Lemma backend_for_index_witness :
  dispatch_at
    [mkChaincodeSupport "peer0"; mkChaincodeSupport "peer1"; mkChaincodeSupport "peer2"]
    [10; 11]
    {[ 10 := mkChaincodeInput [list_byte_of_string "GetConfigBlock"] ∅;
       11 := mkChaincodeInput [list_byte_of_string "invoke"] ∅ ]} 0
  = Some (mkTask 0 (mkChaincodeSupport "peer2")).
Proof.
  destruct (backend_for_index
    [mkChaincodeSupport "peer0"; mkChaincodeSupport "peer1"; mkChaincodeSupport "peer2"]
    [10; 11]
    {[ 10 := mkChaincodeInput [list_byte_of_string "GetConfigBlock"] ∅;
       11 := mkChaincodeInput [list_byte_of_string "invoke"] ∅ ]}
    0 10 (mkChaincodeInput [list_byte_of_string "GetConfigBlock"] ∅)
    (list_byte_of_string "GetConfigBlock")
    ltac:(simpl; lia) eq_refl eq_refl eq_refl)
    as (at_i & at_last & Hi & Hl & Hd & _).
  injection Hi as <-. injection Hl as <-. exact Hd.
Defined.

(** An input without arguments makes [inputs[i].Args[0]] panic. *)
Lemma select_support_no_args (roster : list ChaincodeSupport)
    (input : ChaincodeInput) (i : nat) :
  Args input = [] → select_support roster input i = None.
Proof.
  intros H. unfold select_support. rewrite H.
  by destruct (roster !! i).
Qed.

(** ** The ledger delegations *)

Section LedgerFacts.
Context {PeerLedger TxSimulator HistoryQueryExecutor ProcessedTransaction : Type}.
Variable Peer : @PeerOperations PeerLedger TxSimulator HistoryQueryExecutor
                  ProcessedTransaction.

(** C8: on a channel for which [GetLedger] returns nil, each of the five
    delegations returns the zero value of its result type together with an
    error whose text names the channel, and the only call it has made is
    [GetLedger]. *)
Theorem missing_ledger_is_an_error (channel txid : string) :
  GetLedger Peer channel = None →
  run (GetTxSimulator Peer channel txid)
    = Some ((None, Some ("Channel does not exist: " +:+ channel)),
            [CallGetLedger channel]) ∧
  run (GetHistoryQueryExecutor Peer channel)
    = Some ((None, Some ("Channel does not exist: " +:+ channel)),
            [CallGetLedger channel]) ∧
  run (GetTransactionByID Peer channel txid)
    = Some ((None, Some ("failed to look up the ledger for Channel " +:+ channel)),
            [CallGetLedger channel]) ∧
  run (GetLedgerHeight Peer channel)
    = Some ((0%N, Some ("failed to look up the ledger for Channel " +:+ channel)),
            [CallGetLedger channel]) ∧
  run (NewQueryCreator Peer channel)
    = Some ((None, Some ("channel " +:+ channel +:+ " doesn't exist")),
            [CallGetLedger channel]).
Proof.
  intros H.
  unfold run, GetTxSimulator, GetHistoryQueryExecutor, GetTransactionByID,
    GetLedgerHeight, NewQueryCreator, bind, call, ret.
  rewrite H. simpl. done.
Qed.

(** With a ledger at hand every delegation goes on to call it. *)
Lemma present_ledger_is_called (channel txid : string) (l : PeerLedger) :
  GetLedger Peer channel = Some l →
  run (GetTxSimulator Peer channel txid)
    = Some (NewTxSimulator Peer l txid,
            [CallGetLedger channel; CallNewTxSimulator txid]) ∧
  run (GetHistoryQueryExecutor Peer channel)
    = Some (NewHistoryQueryExecutor Peer l,
            [CallGetLedger channel; CallNewHistoryQueryExecutor]) ∧
  run (NewQueryCreator Peer channel) = Some ((Some l, None), [CallGetLedger channel]).
Proof.
  intros H.
  unfold run, GetTxSimulator, GetHistoryQueryExecutor, NewQueryCreator,
    bind, call, ret.
  rewrite H. simpl. done.
Qed.

End LedgerFacts.

Lemma missing_ledger_is_an_error_witness :
  run (GetLedgerHeight one_channel_peer "nochannel")
  = Some ((0%N, Some "failed to look up the ledger for Channel nochannel"),
          [CallGetLedger "nochannel"]).
Proof.
  exact (proj1 (proj2 (proj2 (proj2
    (missing_ledger_is_an_error one_channel_peer "nochannel" "tx1" eq_refl))))).
Defined.

(** ** [CheckACL] *)

Section ACLFacts.
Context {SignedProposal SignatureHeader ChaincodeHeaderExtension : Type}.
Variable ACLProvider : string → string → SignedProposal → error.

(** C10: two calls of [CheckACL] with the same signed proposal and channel
    headers that agree on [ChannelId] (or are both nil) give the same
    result, whatever the signature headers, the header extensions and the
    other fields of the channel headers are. *)
Theorem CheckACL_depends_on_proposal_and_channel
    (signedProp : SignedProposal) (chdr1 chdr2 : option ChannelHeader)
    (shdr1 shdr2 : option SignatureHeader)
    (hdrext1 hdrext2 : option ChaincodeHeaderExtension) :
  ChannelId <$> chdr1 = ChannelId <$> chdr2 →
  CheckACL ACLProvider signedProp chdr1 shdr1 hdrext1
  = CheckACL ACLProvider signedProp chdr2 shdr2 hdrext2.
Proof.
  unfold CheckACL.
  destruct chdr1 as [c1|], chdr2 as [c2|]; simpl; intros H; try done.
  injection H as ->. done.
Qed.

(** The result is the provider's answer for the resource [Peer_Propose]. *)
Lemma CheckACL_delegates (signedProp : SignedProposal) (c : ChannelHeader)
    (shdr : option SignatureHeader) (hdrext : option ChaincodeHeaderExtension) :
  CheckACL ACLProvider signedProp (Some c) shdr hdrext
  = Some (ACLProvider Peer_Propose (ChannelId c) signedProp).
Proof. reflexivity. Qed.

End ACLFacts.

Lemma CheckACL_depends_on_proposal_and_channel_witness :
  CheckACL (SignatureHeader := string) (ChaincodeHeaderExtension := string)
    sample_provider "alice"
    (Some (mkChannelHeader 3 1 100 "mychannel" "tx1" 0 [] [])) (Some "sig1") None
  = CheckACL (SignatureHeader := string) (ChaincodeHeaderExtension := string)
    sample_provider "alice"
    (Some (mkChannelHeader 1 0 200 "mychannel" "tx2" 7 [] [])) None (Some "ext").
Proof.
  exact (CheckACL_depends_on_proposal_and_channel sample_provider "alice"
    (Some (mkChannelHeader 3 1 100 "mychannel" "tx1" 0 [] []))
    (Some (mkChannelHeader 1 0 200 "mychannel" "tx2" 7 [] []))
    (Some "sig1") None None (Some "ext") eq_refl).
Defined.

(** ** The decoration pass *)

Lemma Apply_from_spec (k : nat) (proposal : Proposal) (input : ChaincodeInput)
    (decorators : list Decorator) :
  Apply_from k proposal input decorators
  = (foldl (λ x d, d proposal x) input decorators,
     imap (λ j _, (k + j, foldl (λ x d, d proposal x) input (take j decorators)))
       decorators).
Proof.
  revert k input. induction decorators as [|d ds IH]; intros k input; [done|].
  simpl. rewrite IH. f_equal. f_equal.
  - by rewrite Nat.add_0_r.
  - apply imap_ext. intros j x _. simpl. f_equal. lia.
Qed.

Lemma decorate_at_Some (decorators : list Decorator) (props : list Proposal)
    (inputs : list nat) (i p : nat) (obj : ChaincodeInput) (proposal : Proposal)
    (st : Decorated) :
  inputs !! i = Some p →
  d_store st !! p = Some obj →
  props !! i = Some proposal →
  decorate_at decorators props inputs i st
  = Some {| d_store := <[p := decorated_by decorators proposal (length decorators) obj]>
                         (d_store st);
            d_txParams := set_ProposalDecorations (d_txParams st)
              (Decorations (decorated_by decorators proposal (length decorators) obj));
            d_calls := d_calls st ++
              imap (λ k _, mkDecorateCall i k proposal
                             (decorated_by decorators proposal k obj)) decorators |}.
Proof.
  intros Hi Hp Hprop. unfold decorate_at, Apply, decorated_by.
  rewrite Hi. simpl. rewrite Hp. simpl. rewrite Hprop. simpl.
  rewrite Apply_from_spec, firstn_all. f_equal. f_equal. f_equal.
  rewrite fmap_imap. apply imap_ext. intros. reflexivity.
Qed.

Lemma decorate_at_inv (decorators : list Decorator) (props : list Proposal)
    (inputs : list nat) (i : nat) (st st' : Decorated) :
  decorate_at decorators props inputs i st = Some st' →
  ∃ p obj proposal,
    inputs !! i = Some p ∧ d_store st !! p = Some obj ∧ props !! i = Some proposal.
Proof.
  unfold decorate_at. intros H.
  destruct (inputs !! i) as [p|] eqn:Hp; [|done]. simpl in H.
  destruct (d_store st !! p) as [obj|] eqn:Ho; [|done]. simpl in H.
  destruct (props !! i) as [proposal|] eqn:Hprop; [|done].
  by exists p, obj, proposal.
Qed.






(** The calls built for the goroutines: one per input, all with the
    [txParams] left by the pass, each with the object behind its own slot. *)
Lemma prepare_calls (roster : list ChaincodeSupport)
    (decorators : list Decorator) (txParams : TransactionParams)
    (name version : string) (props : list Proposal) (inputs : list nat)
    (h : gmap nat ChaincodeInput) (st : Decorated) (calls : list BackendCall) :
  prepare roster decorators txParams name version props inputs h = Some (st, calls) →
  decorate decorators props inputs h txParams = Some st ∧
  length calls = length inputs ∧
  ∀ i call, calls !! i = Some call →
    bc_txParams call = d_txParams st ∧
    ∃ p, inputs !! i = Some p ∧ d_store st !! p = Some (bc_input call).
Proof.
  unfold prepare. intros H.
  destruct (decorate decorators props inputs h txParams) as [st0|] eqn:Hd; [|done].
  simpl in H.
  destruct (dispatch roster inputs (d_store st0)) as [tasks|] eqn:Ht; [|done].
  simpl in H.
  destruct (mapM _ tasks) as [cs|] eqn:Hm; [|done].
  simpl in H. injection H as <- <-.
  split; [done|].
  apply mapM_Some in Hm.
  pose proof (dispatch_loop_length _ _ _ _ _ Ht) as Hlen.
  rewrite length_seq in Hlen.
  split. { by rewrite <- (Forall2_length _ _ _ Hm). }
  intros i call Hi.
  destruct (Forall2_lookup_r _ _ _ _ _ Hm Hi) as (t & Hti & Hcall).
  assert (i < length inputs) as Hlt by (apply lookup_lt_Some in Hti; lia).
  assert (tasks !! i = dispatch_at roster inputs (d_store st0) i) as Hdi.
  { eapply dispatch_loop_lookup; [exact Ht|]. by apply lookup_seq. }
  rewrite Hti in Hdi. symmetry in Hdi.
  assert (t_index t = i) as Hidx.
  { unfold dispatch_at in Hdi.
    destruct (inputs !! i) as [q|]; [|done]. simpl in Hdi.
    destruct (d_store st0 !! q) as [x|]; [|done]. simpl in Hdi.
    destruct (select_support roster x i); [|done]. simpl in Hdi.
    by injection Hdi as <-. }
  unfold task_call in Hcall. rewrite Hidx in Hcall.
  destruct (inputs !! i) as [q|]; [|done]. simpl in Hcall.
  destruct (d_store st0 !! q) as [x|] eqn:Hx; [|done]. simpl in Hcall.
  injection Hcall as <-. simpl.
  split; [done|]. by exists q.
Qed.



(** ** [txParams] after the decoration pass *)

Lemma decorate_loop_app (decorators : list Decorator) (props : list Proposal)
    (inputs : list nat) (l1 l2 : list nat) (st : Decorated) :
  decorate_loop decorators props inputs (l1 ++ l2) st
  = decorate_loop decorators props inputs l1 st
      ≫= decorate_loop decorators props inputs l2.
Proof.
  revert st. induction l1 as [|i l1 IH]; intros st; [done|]. simpl.
  destruct (decorate_at decorators props inputs i st) as [st1|]; [|done].
  simpl. apply IH.
Qed.

(** The pass touches no field of [txParams] but [ProposalDecorations]. *)
Lemma decorate_loop_frame (decorators : list Decorator) (props : list Proposal)
    (inputs : list nat) (indices : list nat) (st st' : Decorated) :
  decorate_loop decorators props inputs indices st = Some st' →
  TxID (d_txParams st') = TxID (d_txParams st) ∧
  ChannelID (d_txParams st') = ChannelID (d_txParams st).
Proof.
  revert st. induction indices as [|i rest IH]; intros st H; simpl in H.
  - by injection H as <-.
  - destruct (decorate_at decorators props inputs i st) as [st1|] eqn:H1; [|done].
    simpl in H. destruct (IH _ H) as [-> ->].
    destruct (decorate_at_inv _ _ _ _ _ _ H1) as (p & obj & proposal & Hp & Ho & Hprop).
    rewrite (decorate_at_Some _ _ _ _ _ _ _ _ Hp Ho Hprop) in H1.
    by injection H1 as <-.
Qed.

(** After the pass [txParams.ProposalDecorations] is the decoration map of
    the object behind the last slot of [inputs]. *)
Lemma decorate_leaves_last (decorators : list Decorator) (props : list Proposal)
    (inputs : list nat) (h : gmap nat ChaincodeInput)
    (txParams : TransactionParams) (st : Decorated) :
  decorate decorators props inputs h txParams = Some st →
  inputs ≠ [] →
  ∃ p obj, last inputs = Some p ∧ d_store st !! p = Some obj ∧
           ProposalDecorations (d_txParams st) = Decorations obj.
Proof.
  unfold decorate. intros H Hne.
  destruct (length inputs) as [|m] eqn:Hm.
  { destruct inputs; [done | discriminate]. }
  rewrite seq_S, decorate_loop_app in H. simpl in H.
  destruct (decorate_loop decorators props inputs (seq 0 m) _) as [st0|]; [|done].
  simpl in H.
  destruct (decorate_at decorators props inputs m st0) as [st1|] eqn:H1; [|done].
  simpl in H. injection H as <-.
  destruct (decorate_at_inv _ _ _ _ _ _ H1) as (p & obj & proposal & Hp & Ho & Hprop).
  rewrite (decorate_at_Some _ _ _ _ _ _ _ _ Hp Ho Hprop) in H1. injection H1 as <-.
  exists p, (decorated_by decorators proposal (length decorators) obj). simpl.
  split; [|split]; [|by rewrite lookup_insert_eq|done].
  rewrite last_lookup, Hm. exact Hp.
Qed.

(** C9: when [Execute] gets as far as starting its goroutines on a
    non-empty batch, [txParams.ProposalDecorations] is the decoration map
    of the last input, and every goroutine, whatever its index, calls the
    backend with that one [txParams] and with its own decorated input. *)
Theorem one_txParams_for_all_tasks (roster : list ChaincodeSupport)
    (decorators : list Decorator) (txParams : TransactionParams)
    (name version : string) (props : list Proposal) (inputs : list nat)
    (h : gmap nat ChaincodeInput) (st : Decorated) (calls : list BackendCall) :
  prepare roster decorators txParams name version props inputs h = Some (st, calls) →
  inputs ≠ [] →
  ∃ p_last last_input,
    last inputs = Some p_last ∧
    d_store st !! p_last = Some last_input ∧
    ProposalDecorations (d_txParams st) = Decorations last_input ∧
    length calls = length inputs ∧
    ∀ i call, calls !! i = Some call →
      bc_txParams call = d_txParams st ∧
      ProposalDecorations (bc_txParams call) = Decorations last_input ∧
      ∃ p, inputs !! i = Some p ∧ d_store st !! p = Some (bc_input call).
Proof.
  intros H Hne.
  destruct (prepare_calls _ _ _ _ _ _ _ _ _ _ H) as (Hd & Hlen & Hcalls).
  destruct (decorate_leaves_last _ _ _ _ _ _ Hd Hne) as (p & obj & Hl & Ho & Hpd).
  exists p, obj. split; [done|]. split; [done|]. split; [done|]. split; [done|].
  intros i call Hi. destruct (Hcalls i call Hi) as (Htx & Hown).
  split; [done|]. split; [by rewrite Htx|done].
Qed.

Lemma one_txParams_for_all_tasks_witness :
  ∃ st calls,
    prepare sample_roster [stamp "a"] sample_txParams "mycc" "1.0"
      sample_props [10; 11] sample_store = Some (st, calls) ∧
    length calls = 2 ∧
    ∀ i call, calls !! i = Some call → bc_txParams call = d_txParams st.
Proof.
  destruct (prepare sample_roster [stamp "a"] sample_txParams "mycc" "1.0"
              sample_props [10; 11] sample_store) as [[st calls]|] eqn:H;
    [|vm_compute in H; discriminate].
  exists st, calls. split; [reflexivity|].
  destruct (one_txParams_for_all_tasks _ _ _ _ _ _ _ _ _ _ H ltac:(discriminate))
    as (p & obj & _ & _ & _ & Hlen & Hall).
  split; [exact Hlen|].
  intros i call Hi. exact (proj1 (Hall i call Hi)).
Defined.

(** The goroutine for index 0 is handed the decorations of the last input,
    not those of its own. *)
Lemma first_task_gets_last_decorations :
  ∃ st calls call,
    prepare sample_roster [stamp "a"] sample_txParams "mycc" "1.0"
      sample_props [10; 11] sample_store = Some (st, calls) ∧
    calls !! 0 = Some call ∧
    ProposalDecorations (bc_txParams call) !! "a" = Some (list_byte_of_string "second") ∧
    Decorations (bc_input call) !! "a" = Some (list_byte_of_string "first").
Proof.
  eexists _, _, _. split; [reflexivity|].
  split; [reflexivity|]. split; reflexivity.
Qed.

(** ** Goroutines and channels: counting *)

Lemma ids_where_insert_same (P : TaskPc → bool) (b : nat) (l : list TaskPc)
    (i : nat) (pc pc' : TaskPc) :
  l !! i = Some pc → P pc = P pc' →
  ids_where P b (<[i := pc']> l) = ids_where P b l.
Proof.
  revert b i. induction l as [|x l IH]; intros b [|i] Hi HP; simpl in *; try done.
  - injection Hi as ->. by rewrite HP.
  - f_equal. by apply IH.
Qed.

Lemma ids_where_insert_new (P : TaskPc → bool) (b : nat) (l : list TaskPc)
    (i : nat) (pc pc' : TaskPc) :
  l !! i = Some pc → P pc = false → P pc' = true →
  ids_where P b (<[i := pc']> l) ≡ₚ (b + i) :: ids_where P b l.
Proof.
  revert b i. induction l as [|x l IH]; intros b [|i] Hi H0 H1; simpl in *; try done.
  - injection Hi as ->. rewrite H0, H1. simpl. by rewrite Nat.add_0_r.
  - rewrite (IH (S b) i Hi H0 H1).
    replace (S b + i) with (b + S i) by lia.
    destruct (P x); simpl; [apply perm_swap | done].
Qed.

Lemma ids_where_length_le (P : TaskPc → bool) (b : nat) (l : list TaskPc) :
  length (ids_where P b l) ≤ length l.
Proof.
  revert b. induction l as [|x l IH]; intros b; simpl; [done|].
  rewrite length_app. specialize (IH (S b)). destruct (P x); simpl; lia.
Qed.

Lemma ids_where_agree (P Q : TaskPc → bool) (b : nat) (l : list TaskPc) :
  (∀ pc, pc ∈ l → P pc = Q pc) → ids_where P b l = ids_where Q b l.
Proof.
  revert b. induction l as [|x l IH]; intros b H; simpl; [done|].
  rewrite (H x) by left. f_equal. apply IH. intros pc Hpc. apply H. by right.
Qed.

(** If fewer goroutines satisfy [P] than [Q], one satisfies [Q] but not [P]. *)
Lemma ids_where_gap (P Q : TaskPc → bool) (b : nat) (l : list TaskPc) :
  length (ids_where P b l) < length (ids_where Q b l) →
  ∃ i pc, l !! i = Some pc ∧ Q pc = true ∧ P pc = false.
Proof.
  revert b. induction l as [|x l IH]; intros b H; simpl in H; [lia|].
  rewrite !length_app in H.
  destruct (Q x) eqn:HQ, (P x) eqn:HP; simpl in H;
    try (by exists 0, x).
  all: destruct (IH (S b)) as (i & pc & Hi & H1 & H2); [lia|].
  all: by exists (S i), pc.
Qed.

Lemma ids_where_all (b : nat) (l : list TaskPc) :
  ids_where (λ _, true) b l = seq b (length l).
Proof.
  revert b. induction l as [|x l IH]; intros b; simpl; [done|]. by rewrite IH.
Qed.

(** If all goroutines satisfy [P], they are all listed. *)
Lemma ids_where_full (P : TaskPc → bool) (b : nat) (l : list TaskPc) :
  length (ids_where P b l) = length l →
  (∀ pc, pc ∈ l → P pc = true) ∧ ids_where P b l = seq b (length l).
Proof.
  intros H.
  assert (∀ pc, pc ∈ l → P pc = true) as Hall.
  { intros pc Hpc. destruct (P pc) eqn:HP; [done|]. exfalso.
    apply list_elem_of_lookup in Hpc as [i Hi].
    revert b i H Hi. induction l as [|x l IH]; intros b i H Hi; [done|].
    simpl in H. rewrite length_app in H.
    pose proof (ids_where_length_le P (S b) l) as Hle.
    destruct i as [|i]; simpl in Hi.
    - injection Hi as ->. rewrite HP in H. simpl in H. lia.
    - apply (IH (S b) i); [|done]. destruct (P x); simpl in H; lia. }
  split; [done|].
  rewrite <- ids_where_all. by apply ids_where_agree.
Qed.

Lemma sum_list_insert (f : TaskPc → nat) (l : list TaskPc) (i : nat)
    (pc pc' : TaskPc) :
  l !! i = Some pc →
  sum_list (f <$> <[i := pc']> l) + f pc = sum_list (f <$> l) + f pc'.
Proof.
  revert i. induction l as [|x l IH]; intros [|i] Hi; simpl in *; try done.
  - injection Hi as ->. clear IH. lia.
  - specialize (IH i Hi). unfold fmap in *. lia.
Qed.

(** ** Goroutines and channels: the invariant *)

Section CollectorFacts.
Context {Response ChaincodeEvent : Type}.
Implicit Types s : State Response ChaincodeEvent.
Implicit Types outs : list (option (Outcome Response ChaincodeEvent)).

Lemma counted_init (n : nat) :
  1 ≤ n → counted n (init n : State Response ChaincodeEvent).
Proof.
  intros Hn. split; simpl; try done; try lia.
  - apply length_replicate.
  - rewrite (ids_where_agree past_evt (λ _, false)); [|by intros pc [-> _]%elem_of_replicate].
    clear. generalize 0. induction n; intros; simpl; [done|]. apply IHn.
  - rewrite (ids_where_agree past_err (λ _, false)); [|by intros pc [-> _]%elem_of_replicate].
    clear. generalize 0. induction n; intros; simpl; [done|]. apply IHn.
  - rewrite (ids_where_agree past_res (λ _, false)); [|by intros pc [-> _]%elem_of_replicate].
    clear. generalize 0. induction n; intros; simpl; [done|]. apply IHn.
Qed.

Ltac step_cases H i pc o Hpc Ho :=
  match type of H with
  | step _ ?a ?s = Some _ =>
      destruct s as [pcs0 cRes0 cCCEvt0 cErr0 loop0 resps0 ccEvents0 err0 log0];
      destruct a as [i|];
      [ unfold step, step_task in H; cbn [pcs] in H;
        destruct (pcs0 !! i) as [pc|] eqn:Hpc; [|done];
        cbn [mbind option_bind] in H;
        destruct (mjoin (_ !! i)) as [o|] eqn:Ho; [|done];
        cbn [mbind option_bind] in H;
        destruct pc; [ | case_decide; [|done] | case_decide; [|done]
                       | case_decide; [|done] | done];
        injection H as <-
      | unfold step, step_loop in H; cbn [loop cErr cRes cCCEvt] in H;
        destruct loop0 as [|ie|ie jr r|];
        [ destruct cErr0 as [|[ie e] q]; [done|]
        | destruct cRes0 as [|[jr r] q]; [done|]
        | destruct cCCEvt0 as [|[kv v] q]; [done|]
        | done ];
        injection H as <- ]
  end.

Lemma counted_step (outs : list (option (Outcome Response ChaincodeEvent)))
    (a : Action) s s' :
  counted (length outs) s → step outs a s = Some s' → counted (length outs) s'.
Proof.
  intros [Hp Hevt Herr Hres Hrs Hes Hex Hcap] H.
  step_cases H i pc o Hpc Ho; simpl in *.
  - split; simpl; try done.
    + by rewrite length_insert.
    + by rewrite (ids_where_insert_same _ _ _ _ _ SendEvent Hpc).
    + by rewrite (ids_where_insert_same _ _ _ _ _ SendEvent Hpc).
    + by rewrite (ids_where_insert_same _ _ _ _ _ SendEvent Hpc).
  - split; simpl; try done.
    + by rewrite length_insert.
    + rewrite (ids_where_insert_new _ _ _ _ _ SendErr Hpc) by done.
      rewrite <- Hevt, fmap_app. simpl. solve_Permutation.
    + by rewrite (ids_where_insert_same _ _ _ _ _ SendErr Hpc).
    + by rewrite (ids_where_insert_same _ _ _ _ _ SendErr Hpc).
    + rewrite length_app. simpl. unfold capacity in *. lia.
  - split; simpl; try done.
    + by rewrite length_insert.
    + by rewrite (ids_where_insert_same _ _ _ _ _ SendResponse Hpc).
    + rewrite (ids_where_insert_new _ _ _ _ _ SendResponse Hpc) by done.
      rewrite <- Herr, fmap_app. simpl. solve_Permutation.
    + by rewrite (ids_where_insert_same _ _ _ _ _ SendResponse Hpc).
    + rewrite length_app. simpl. unfold capacity in *. lia.
  - split; simpl; try done.
    + by rewrite length_insert.
    + by rewrite (ids_where_insert_same _ _ _ _ _ Returned Hpc).
    + by rewrite (ids_where_insert_same _ _ _ _ _ Returned Hpc).
    + rewrite (ids_where_insert_new _ _ _ _ _ Returned Hpc) by done.
      rewrite <- Hres, fmap_app. simpl. solve_Permutation.
    + rewrite length_app. simpl. unfold capacity in *. lia.
  - split; simpl; try done.
    + rewrite <- Herr. solve_Permutation.
    + lia.
  - split; simpl; try done.
    + rewrite <- Hres. solve_Permutation.
    + lia.
  - unfold finish_round. simpl.
    rewrite length_app. simpl.
    case_decide as Hn; [|destruct err0]; split; simpl;
      rewrite ?fmap_app, ?length_app, ?length_insert; simpl; try lia.
    all: try (rewrite <- Hevt; solve_Permutation).
    all: try (rewrite <- Herr; solve_Permutation).
    all: try (rewrite <- Hres; solve_Permutation).
    all: rewrite ?length_insert, ?length_app; simpl; lia.
Qed.

Lemma counted_exec outs (sched : list Action) s s' :
  counted (length outs) s → exec outs sched s = Some s' → counted (length outs) s'.
Proof.
  revert s. induction sched as [|a rest IH]; intros s Hc H; simpl in H.
  - by injection H as <-.
  - destruct (step outs a s) as [s1|] eqn:H1; [|done]. simpl in H.
    eapply IH; [|exact H]. by eapply counted_step.
Qed.

Lemma exec_app outs (l1 l2 : list Action) s :
  exec outs (l1 ++ l2) s = exec outs l1 s ≫= exec outs l2.
Proof.
  revert s. induction l1 as [|a l1 IH]; intros s; [done|]. simpl.
  destruct (step outs a s) as [s1|]; [|done]. simpl. apply IH.
Qed.

(** *** Termination: every step uses up one unit *)

Lemma measure_init (n : nat) :
  measure n (init n : State Response ChaincodeEvent) = 7 * n.
Proof.
  unfold measure, loop_weight. simpl.
  assert (sum_list (weight <$> replicate n Calling) = 4 * n) as ->; [|lia].
  induction n as [|n IH]; [done|]. simpl. unfold fmap in IH. rewrite IH. lia.
Qed.

Lemma measure_step outs (a : Action) s s' :
  counted (length outs) s → step outs a s = Some s' →
  measure (length outs) s = S (measure (length outs) s').
Proof.
  intros [Hp Hevt Herr Hres Hrs Hes Hex Hcap] H. unfold measure, loop_weight.
  step_cases H i pc o Hpc Ho; simpl in *.
  - pose proof (sum_list_insert weight _ _ _ SendEvent Hpc) as Hw.
    simpl in Hw. unfold fmap in *. lia.
  - pose proof (sum_list_insert weight _ _ _ SendErr Hpc) as Hw.
    simpl in Hw. unfold fmap in *. lia.
  - pose proof (sum_list_insert weight _ _ _ SendResponse Hpc) as Hw.
    simpl in Hw. unfold fmap in *. lia.
  - pose proof (sum_list_insert weight _ _ _ Returned Hpc) as Hw.
    simpl in Hw. unfold fmap in *. lia.
  - lia.
  - lia.
  - unfold finish_round. simpl. rewrite length_app. simpl.
    case_decide as Hn; [|destruct err0]; simpl; rewrite ?length_app; simpl; lia.
Qed.

Lemma measure_exec outs (sched : list Action) s s' :
  counted (length outs) s → exec outs sched s = Some s' →
  measure (length outs) s = length sched + measure (length outs) s'.
Proof.
  revert s. induction sched as [|a rest IH]; intros s Hc H; simpl in H.
  - by injection H as <-.
  - destruct (step outs a s) as [s1|] eqn:H1; [|done]. simpl in H.
    rewrite (measure_step _ _ _ _ Hc H1).
    rewrite (IH s1); [simpl; lia| by eapply counted_step |done].
Qed.

(** When the loop has left, every goroutine has returned and the channels
    are empty. *)
Lemma counted_exited (n : nat) s :
  counted n s → loop s = Exited →
  (∀ pc, pc ∈ pcs s → pc = Returned) ∧
  cCCEvt s = [] ∧ cErr s = [] ∧ cRes s = [] ∧
  c_evt_from <$> collected s ≡ₚ seq 0 n ∧
  c_err_from <$> collected s ≡ₚ seq 0 n ∧
  c_res_from <$> collected s ≡ₚ seq 0 n.
Proof.
  intros [Hp Hevt Herr Hres Hrs Hes Hex Hcap] Hl. rewrite Hl in *. simpl in *.
  pose proof (ids_where_length_le past_res 0 (pcs s)) as Hle.
  pose proof (Permutation_length Hres) as Hlr.
  rewrite length_app, !length_fmap in Hlr.
  destruct (ids_where_full past_res 0 (pcs s)) as [Hall Hids]; [lia|].
  assert (∀ pc, pc ∈ pcs s → pc = Returned) as Hret.
  { intros pc Hpc. specialize (Hall pc Hpc). by destruct pc. }
  assert (cRes s = []) as HcRes.
  { apply length_zero_iff_nil. lia. }
  rewrite (ids_where_agree past_evt past_res) in Hevt
    by (intros pc Hpc; by rewrite (Hret pc Hpc)).
  rewrite (ids_where_agree past_err past_res) in Herr
    by (intros pc Hpc; by rewrite (Hret pc Hpc)).
  rewrite Hids, Hp in *.
  pose proof (Permutation_length Hevt) as Hle1.
  pose proof (Permutation_length Herr) as Hle2.
  rewrite length_app, !length_fmap, length_seq in Hle1.
  rewrite length_app, !length_fmap, length_seq in Hle2.
  assert (cCCEvt s = []) as HcEvt by (apply length_zero_iff_nil; lia).
  assert (cErr s = []) as HcErr by (apply length_zero_iff_nil; lia).
  rewrite HcEvt in Hevt. rewrite HcErr in Herr. rewrite HcRes in Hres.
  done.
Qed.

Lemma measure_exited (n : nat) s :
  counted n s → (loop s = Exited ↔ measure n s = 0).
Proof.
  intros Hc. split.
  - intros Hl. destruct (counted_exited n s Hc Hl) as (Hret & _).
    unfold measure, loop_weight. rewrite Hl.
    assert (sum_list (weight <$> pcs s) = 0) as ->; [|done].
    induction (pcs s) as [|pc l IH]; [done|]. simpl.
    rewrite (Hret pc) by left. simpl. apply IH. intros x Hx. apply Hret. by right.
  - destruct Hc as [_ _ _ _ _ _ Hex _]. unfold measure, loop_weight.
    destruct (loop s); [lia..|done].
Qed.

(** *** Progress: the loop and the goroutines never block each other *)

Lemma returns_lookup outs (i : nat) :
  Forall is_Some outs → i < length outs → is_Some (mjoin (outs !! i)).
Proof.
  intros Hall Hi.
  destruct (lookup_lt_is_Some_2 outs i Hi) as [x Hx].
  rewrite Forall_lookup in Hall. destruct (Hall i x Hx) as [o ->].
  rewrite Hx. by eexists.
Qed.

Lemma task_enabled outs (i : nat) (pc : TaskPc) s :
  Forall is_Some outs → length (pcs s) = length outs →
  pcs s !! i = Some pc →
  match pc with
  | Calling => True
  | SendEvent => length (cCCEvt s) < capacity
  | SendErr => length (cErr s) < capacity
  | SendResponse => length (cRes s) < capacity
  | Returned => False
  end →
  is_Some (step outs (Run i) s).
Proof.
  intros Hall Hlen Hpc Hen.
  destruct (returns_lookup outs i Hall) as [o Ho].
  { apply lookup_lt_Some in Hpc. lia. }
  unfold step, step_task. rewrite Hpc. simpl. rewrite Ho. simpl.
  destruct pc; try done; try (by eexists); by rewrite decide_True.
Qed.

(** As long as the loop has not left, some goroutine can take a step or
    the loop can. *)
Lemma progress outs s :
  Forall is_Some outs → counted (length outs) s → loop s ≠ Exited →
  ∃ a s', step outs a s = Some s'.
Proof.
  intros Hall [Hp Hevt Herr Hres Hrs Hes Hex Hcap] Hl.
  assert (∀ i pc, pcs s !! i = Some pc →
            match pc with
            | Calling => True
            | SendEvent => length (cCCEvt s) < capacity
            | SendErr => length (cErr s) < capacity
            | SendResponse => length (cRes s) < capacity
            | Returned => False
            end → ∃ a s', step outs a s = Some s') as Hrun.
  { intros i pc Hpc Hen.
    destruct (task_enabled outs i pc s Hall Hp Hpc Hen) as [s' Hs']. by exists (Run i), s'. }
  pose proof (Permutation_length Hevt) as Le.
  pose proof (Permutation_length Herr) as Lr.
  pose proof (Permutation_length Hres) as Ls.
  rewrite !length_app, !length_fmap in Le.
  rewrite !length_app, !length_fmap in Lr.
  rewrite !length_app, !length_fmap in Ls.
  destruct (loop s) as [|ie|ie jr r|] eqn:Hloop; [| | |done]; simpl in *.
  - (* waiting on cErr *)
    destruct (cErr s) as [|[ie e] q] eqn:HcErr.
    2:{ exists Collect. unfold step, step_loop. rewrite Hloop, HcErr. by eexists. }
    simpl in Lr.
    destruct (decide (SendErr ∈ pcs s)) as [Hin|Hno1].
    { apply list_elem_of_lookup in Hin as [i Hi]. apply (Hrun i _ Hi).
      unfold capacity. simpl. lia. }
    destruct (decide (Calling ∈ pcs s)) as [Hin|Hno2].
    { apply list_elem_of_lookup in Hin as [i Hi]. by apply (Hrun i _ Hi). }
    assert (ids_where past_evt 0 (pcs s) = ids_where past_err 0 (pcs s)) as Heq.
    { apply ids_where_agree. intros pc Hpc. destruct pc; try done. }
    rewrite Heq in Le.
    destruct (ids_where_gap past_err (λ _, true) 0 (pcs s)) as (i & pc & Hi & _ & Hpc).
    { rewrite ids_where_all, length_seq. lia. }
    apply (Hrun i _ Hi).
    destruct pc; try done; unfold capacity; simpl; lia.
  - (* waiting on cRes *)
    destruct (cRes s) as [|[jr r] q] eqn:HcRes.
    2:{ exists Collect. unfold step, step_loop. rewrite Hloop, HcRes. by eexists. }
    simpl in Ls.
    destruct (ids_where_gap past_res past_err 0 (pcs s)) as (i & pc & Hi & Hpc1 & Hpc2).
    { lia. }
    apply (Hrun i _ Hi). destruct pc; try done.
    unfold capacity. simpl. lia.
  - (* waiting on cCCEvt *)
    destruct (cCCEvt s) as [|[kv v] q] eqn:HcEvt.
    2:{ exists Collect. unfold step, step_loop. rewrite Hloop, HcEvt. by eexists. }
    exfalso. simpl in Le.
    assert (length (ids_where past_res 0 (pcs s))
            ≤ length (ids_where past_evt 0 (pcs s))); [|lia].
    destruct (decide (length (ids_where past_evt 0 (pcs s))
                      < length (ids_where past_res 0 (pcs s)))) as [Hlt|]; [|lia].
    destruct (ids_where_gap _ _ _ _ Hlt) as (i & pc & _ & H1 & H2).
    by destruct pc.
Qed.

(** Every run can be carried on until the loop leaves. *)
Lemma can_finish outs s :
  Forall is_Some outs → counted (length outs) s →
  ∃ rest s', exec outs rest s = Some s' ∧ loop s' = Exited.
Proof.
  intros Hall. remember (measure (length outs) s) as m eqn:Hm.
  revert s Hm. induction m as [|m IH]; intros s Hm Hc.
  - exists [], s. split; [done|]. by apply (measure_exited _ _ Hc).
  - destruct (progress outs s Hall Hc) as (a & s1 & H1).
    { intros Hl. apply (measure_exited _ _ Hc) in Hl. lia. }
    pose proof (measure_step _ _ _ _ Hc H1) as Hms.
    destruct (IH s1) as (rest & s' & Hr & Hl); [lia| by eapply counted_step |].
    exists (a :: rest), s'. simpl. rewrite H1. done.
Qed.

(** *** The values in flight are the backends' own *)

Lemma valued_init outs (n : nat) : valued outs (init n).
Proof. by split. Qed.

Lemma valued_step outs (a : Action) s s' :
  valued outs s → step outs a s = Some s' → valued outs s'.
Proof.
  intros [Hevt Herr Hres Hlog Hloop] H.
  step_cases H i pc o Hpc Ho; simpl in *.
  - by split.
  - split; simpl; try done. apply Forall_app. split; [done|].
    apply Forall_singleton. unfold sent_by. simpl. by rewrite Ho.
  - split; simpl; try done. apply Forall_app. split; [done|].
    apply Forall_singleton. unfold sent_by. simpl. by rewrite Ho.
  - split; simpl; try done. apply Forall_app. split; [done|].
    apply Forall_singleton. unfold sent_by. simpl. by rewrite Ho.
  - apply Forall_cons in Herr as [He Herr]. by split.
  - apply Forall_cons in Hres as [Hr Hres]. by split.
  - apply Forall_cons in Hevt as [Hv Hevt]. destruct Hloop as [He Hr].
    unfold finish_round. simpl.
    case_decide; [|destruct err0]; split; simpl; try done.
    all: apply Forall_app; split; [done|]; by apply Forall_singleton.
Qed.

Lemma valued_exec outs (sched : list Action) s s' :
  valued outs s → exec outs sched s = Some s' → valued outs s'.
Proof.
  revert s. induction sched as [|a rest IH]; intros s Hc H; simpl in H.
  - by injection H as <-.
  - destruct (step outs a s) as [s1|] eqn:H1; [|done]. simpl in H.
    eapply IH; [|exact H]. by eapply valued_step.
Qed.

(** *** The collections are the fold of [round] over the rounds read *)

Lemma aggregate_snoc (n : nat) (l : list (error * Response * ChaincodeEvent))
    (c : error * Response * ChaincodeEvent) :
  aggregate n (l ++ [c]) = round n (aggregate n l) c.
Proof. unfold aggregate. by rewrite foldl_app. Qed.

Lemma aggregated_init (n : nat) :
  aggregated n (init n : State Response ChaincodeEvent).
Proof. reflexivity. Qed.

Lemma aggregated_step outs (a : Action) s s' :
  aggregated (length outs) s → step outs a s = Some s' →
  aggregated (length outs) s'.
Proof.
  unfold aggregated. intros Hagg H.
  step_cases H i pc o Hpc Ho; simpl in *; try done.
  - by exists err0.
  - unfold finish_round. simpl. destruct Hagg as [e0 Hagg].
    case_decide as Hn; [|destruct err0 as [msg|]]; simpl;
      rewrite fmap_app; cbn [fmap list_fmap];
      rewrite aggregate_snoc, Hagg; unfold triple; simpl.
    + by rewrite decide_True.
    + by rewrite decide_False.
    + by rewrite decide_False.
Qed.

Lemma aggregated_exec outs (sched : list Action) s s' :
  aggregated (length outs) s → exec outs sched s = Some s' →
  aggregated (length outs) s'.
Proof.
  revert s. induction sched as [|a rest IH]; intros s Hc H; simpl in H.
  - by injection H as <-.
  - destruct (step outs a s) as [s1|] eqn:H1; [|done]. simpl in H.
    eapply IH; [|exact H]. by eapply aggregated_step.
Qed.

Lemma reachable_invariants outs (sched : list Action) s :
  1 ≤ length outs →
  exec outs sched (init (length outs)) = Some s →
  counted (length outs) s ∧ valued outs s ∧ aggregated (length outs) s.
Proof.
  intros Hn H. split; [|split].
  - eapply counted_exec; [|exact H]. by apply counted_init.
  - eapply valued_exec; [|exact H]. apply valued_init.
  - eapply aggregated_exec; [|exact H]. apply aggregated_init.
Qed.

(** *** The fold of [round] *)

(** Rounds without an error only append. *)
Lemma foldl_round_quiet (n : nat) (l : list (error * Response * ChaincodeEvent))
    (rs : list Response) (es : list ChaincodeEvent) (e0 : error) :
  Forall (λ c, c.1.1 = None) l →
  length rs + length l ≤ n →
  ∃ d, foldl (round n) (rs, es, e0, false) l
       = (rs ++ l.*1.*2, es ++ l.*2, (if l is [] then e0 else None), d) ∧
       (d = true ↔ l ≠ [] ∧ n ≤ length rs + length l).
Proof.
  revert rs es e0. induction l as [|[[e r] v] l IH]; intros rs es e0 Hq Hlen.
  - exists false. simpl. rewrite !app_nil_r. split; [done|]. split; [done|].
    by intros [? _].
  - apply Forall_cons in Hq as [He Hq]. simpl in He. subst e. simpl in Hlen.
    cbn [foldl round]. rewrite length_app. simpl.
    case_decide as Hn.
    + assert (l = []) as -> by (apply length_zero_iff_nil; lia).
      exists true. simpl. split; [done|]. split; [|done]. intros _. split; [done|lia].
    + destruct (IH (rs ++ [r]) (es ++ [v]) None Hq) as (d & Hd & Hiff).
      { rewrite length_app. simpl. lia. }
      exists d. rewrite Hd. rewrite <- !app_assoc. simpl.
      split; [by destruct l|].
      rewrite Hiff, length_app. simpl. split.
      * intros [Hl Hle]. split; [done|lia].
      * intros [_ Hle]. split; [|lia]. intros ->. simpl in Hle. lia.
Qed.

(** The error kept is the one read last. *)
Lemma aggregate_shape (n : nat) (l : list (error * Response * ChaincodeEvent)) :
  1 ≤ n → length l ≤ n →
  ∃ rs es, aggregate n l
           = (rs, es, default None ((λ c, c.1.1) <$> last l),
              bool_decide (n ≤ length l)) ∧
           length rs = length l ∧ length es = length l.
Proof.
  intros Hn. induction l as [|[[e r] v] l IH] using rev_ind; intros Hlen.
  - exists [], []. unfold aggregate. simpl. by rewrite bool_decide_eq_false_2 by lia.
  - rewrite length_app in Hlen. simpl in Hlen.
    destruct IH as (rs & es & Hagg & Hrs & Hes); [lia|].
    rewrite aggregate_snoc, Hagg, bool_decide_eq_false_2 by lia.
    rewrite last_snoc, length_app. cbn [round length]. rewrite length_app. simpl.
    destruct (decide (n ≤ length rs + 1)) as [Hd|Hd].
    + exists (rs ++ [r]), (es ++ [v]). rewrite bool_decide_eq_true_2 by lia.
      rewrite !length_app. simpl. split; [done|lia].
    + rewrite bool_decide_eq_false_2 by lia. destruct e.
      * eexists _, _. split; [done|].
        rewrite !length_insert, !length_app. simpl. lia.
      * eexists _, _. split; [done|]. rewrite !length_app. simpl. lia.
Qed.

(** One failing round among [n]: read last, its error is returned; read
    earlier, it is lost but its response and event sit at index 0. *)
Lemma aggregate_one_failure (n : nat)
    (pre post : list (error * Response * ChaincodeEvent))
    (e : string) (r : Response) (v : ChaincodeEvent) :
  length (pre ++ (Some e, r, v) :: post) = n →
  Forall (λ c, c.1.1 = None) pre →
  Forall (λ c, c.1.1 = None) post →
  ∃ rs es ret,
    aggregate n (pre ++ (Some e, r, v) :: post) = (rs, es, ret, true) ∧
    (post = [] → ret = Some e ∧ rs = pre.*1.*2 ++ [r] ∧ es = pre.*2 ++ [v]) ∧
    (post ≠ [] → ret = None ∧ rs !! 0 = Some r ∧ es !! 0 = Some v).
Proof.
  intros Hlen Hpre Hpost. rewrite length_app in Hlen. simpl in Hlen.
  unfold aggregate. rewrite foldl_app.
  destruct (foldl_round_quiet n pre [] [] None Hpre) as (d & -> & Hd); [simpl; lia|].
  assert (d = false) as ->.
  { destruct d; [|done]. destruct Hd as [Hd _]. destruct (Hd eq_refl). simpl in *. lia. }
  cbn [foldl round app]. rewrite length_app, !length_fmap. simpl.
  case_decide as Hn.
  - assert (post = []) as -> by (apply length_zero_iff_nil; lia).
    eexists _, _, _. simpl. split; [done|]. split; [done|]. done.
  - destruct (foldl_round_quiet n post
                (<[0 := r]> (pre.*1.*2 ++ [r])) (<[0 := v]> (pre.*2 ++ [v]))
                (Some e) Hpost) as (d & -> & Hd2).
    { rewrite length_insert, length_app, !length_fmap. simpl. lia. }
    assert (post ≠ []) as Hne by (intros ->; simpl in *; lia).
    assert (d = true) as ->.
    { apply Hd2. split; [done|].
      rewrite length_insert, length_app, !length_fmap. simpl. lia. }
    eexists _, _, _. split; [done|]. split; [done|]. intros _.
    split; [by destruct post|].
    split.
    + rewrite lookup_app_l by (rewrite length_insert, length_app; simpl; lia).
      apply list_lookup_insert_eq. rewrite length_app. simpl. lia.
    + rewrite lookup_app_l by (rewrite length_insert, length_app; simpl; lia).
      apply list_lookup_insert_eq. rewrite length_app. simpl. lia.
Qed.

(** ** The collecting loop: what [Execute] returns *)

Lemma returned_exited s (rs : list Response) (es : list ChaincodeEvent) (e : error) :
  returned s = Some (rs, es, e) →
  loop s = Exited ∧ rs = resps s ∧ es = ccEvents s ∧ e = err s.
Proof.
  unfold returned. destruct (loop s); try done. by intros [= <- <- <-].
Qed.

Lemma exited_returned s : loop s = Exited → is_Some (returned s).
Proof. unfold returned. intros ->. by eexists. Qed.

(** C6: on a batch of at least one input whose backend calls all return,
    every interleaving of the goroutines and the loop (1) is at most [7 * N]
    steps long and has left the loop exactly when it is that long, (2) is
    never stuck before that and can always be carried on to the exit, (3)
    has left the loop exactly when [resps] holds [N] entries, and (4) at
    the exit has read [N] rounds in which the error, the response and the
    event of every goroutine occur exactly once each, with nothing left in
    the channels and every goroutine finished. *)
Theorem collecting_loop_terminates outs (sched : list Action) s :
  1 ≤ length outs →
  Forall is_Some outs →
  exec outs sched (init (length outs)) = Some s →
  length sched ≤ 7 * length outs ∧
  (loop s = Exited ↔ length sched = 7 * length outs) ∧
  (loop s ≠ Exited → ∃ a s', step outs a s = Some s') ∧
  (∃ rest s', exec outs (sched ++ rest) (init (length outs)) = Some s' ∧
              loop s' = Exited) ∧
  length (resps s) ≤ length outs ∧
  (loop s = Exited ↔ length (resps s) = length outs) ∧
  (loop s = Exited →
     length (collected s) = length outs ∧
     c_err_from <$> collected s ≡ₚ seq 0 (length outs) ∧
     c_res_from <$> collected s ≡ₚ seq 0 (length outs) ∧
     c_evt_from <$> collected s ≡ₚ seq 0 (length outs) ∧
     Forall (genuine outs) (collected s) ∧
     cErr s = [] ∧ cRes s = [] ∧ cCCEvt s = [] ∧
     Forall (λ pc, pc = Returned) (pcs s)).
Proof.
  intros Hn Hall H.
  destruct (reachable_invariants outs sched s Hn H) as (Hc & Hv & Ha).
  pose proof (measure_exec outs sched _ _ (counted_init _ Hn) H) as Hm.
  rewrite measure_init in Hm.
  pose proof (measure_exited _ _ Hc) as Hex.
  split; [lia|]. split; [rewrite Hex; lia|].
  split; [intros Hl; by apply progress|].
  split.
  { destruct (can_finish outs s Hall Hc) as (rest & s' & Hr & Hl).
    exists rest, s'. rewrite exec_app, H. done. }
  pose proof (cnt_resps _ _ Hc) as Hrs. pose proof (cnt_exit _ _ Hc) as Hx.
  split; [destruct (loop s); lia|].
  split.
  { split; [intros Hl; rewrite Hl in Hx; lia|].
    intros Hl. destruct (loop s); try done; lia. }
  intros Hl.
  destruct (counted_exited _ _ Hc Hl) as (Hret & He & Hr & Hs & Pe & Pr & Ps).
  rewrite Hl in Hx. repeat split; try done.
  - apply Hv.
  - by apply Forall_forall.
Qed.

(** What a run returns when no backend reports an error. *)
Lemma returned_when_all_succeed outs (sched : list Action) s
    (rs : list Response) (es : list ChaincodeEvent) (e : error) :
  1 ≤ length outs →
  Forall (λ x, ∃ o, x = Some o ∧ o_err o = None) outs →
  exec outs sched (init (length outs)) = Some s →
  returned s = Some (rs, es, e) →
  length rs = length outs ∧ length es = length outs ∧ e = None.
Proof.
  intros Hn Hok H Hret.
  destruct (returned_exited _ _ _ _ Hret) as (Hl & -> & -> & ->).
  destruct (reachable_invariants outs _ s Hn H) as (Hc & Hv & Ha).
  pose proof (cnt_resps _ _ Hc) as Hrs. pose proof (cnt_ccEvents _ _ Hc) as Hes.
  pose proof (cnt_exit _ _ Hc) as Hx. rewrite Hl in Hx.
  split; [lia|]. split; [lia|].
  unfold aggregated in Ha. rewrite Hl in Ha.
  destruct (aggregate_shape (length outs) (triple <$> collected s) Hn)
    as (rs & es & Hagg & _); [rewrite length_fmap; lia|].
  rewrite Ha in Hagg. injection Hagg as _ _ ->.
  rewrite fmap_last.
  destruct (last (collected s)) as [c|] eqn:Hlast; [|done]. simpl.
  apply last_Some_elem_of in Hlast.
  pose proof (val_log _ _ Hv) as Hlog. rewrite Forall_forall in Hlog.
  destruct (Hlog c Hlast) as (He & _). unfold sent_by in He.
  destruct (outs !! c_err_from c) as [x|] eqn:Hx1; [|done].
  rewrite Forall_forall in Hok.
  destruct (Hok x) as (o & -> & Ho); [by eapply list_elem_of_lookup_2|].
  simpl in He. congruence.
Qed.

(** C5: on a batch of at least one input whose backend calls all return a
    nil error, every interleaving can be carried on until [Execute]
    returns, and whenever it returns, both collections have [N] entries and
    the error is nil. *)
Theorem all_tasks_succeed outs (sched : list Action) s :
  1 ≤ length outs →
  Forall (λ x, ∃ o, x = Some o ∧ o_err o = None) outs →
  exec outs sched (init (length outs)) = Some s →
  (∃ rest s', exec outs (sched ++ rest) (init (length outs)) = Some s' ∧
              is_Some (returned s')) ∧
  (∀ rest s' rs es e,
     exec outs (sched ++ rest) (init (length outs)) = Some s' →
     returned s' = Some (rs, es, e) →
     length rs = length outs ∧ length es = length outs ∧ e = None).
Proof.
  intros Hn Hok H.
  assert (Forall is_Some outs) as Hall.
  { eapply Forall_impl; [exact Hok|]. intros x (o & -> & _). by eexists. }
  split.
  { destruct (reachable_invariants outs sched s Hn H) as (Hc & _).
    destruct (can_finish outs s Hall Hc) as (rest & s' & Hr & Hl).
    exists rest, s'. rewrite exec_app, H. split; [done|]. by apply exited_returned. }
  clear s H. intros rest s rs es e H Hret.
  by eapply returned_when_all_succeed.
Qed.

Lemma sent_by_lookup outs {V : Type} (field : Outcome Response ChaincodeEvent → V)
    (i : nat) (v : V) :
  sent_by outs field i v → ∃ o, outs !! i = Some (Some o) ∧ field o = v.
Proof.
  unfold sent_by. destruct (outs !! i) as [[o|]|]; simpl; try done.
  intros [= <-]. by exists o.
Qed.

(** C1, as the code has it. Exactly one goroutine, [f], gets an error from
    its backend. Every interleaving can be carried on until [Execute]
    returns. When it returns, the error of [f] was read in exactly one
    round [c]: if that was the last round, the error returned is that of
    [f]; if it was an earlier round, the error returned is nil, and index 0
    of both collections holds the response and the event read in round [c],
    which are those of [f] whenever the three values of that round come
    from one goroutine. With a single input all of it holds at once. *)
Theorem one_task_fails outs (sched : list Action) s
    (f : nat) (failed : Outcome Response ChaincodeEvent) (msg : string) :
  Forall is_Some outs →
  outs !! f = Some (Some failed) →
  o_err failed = Some msg →
  (∀ i o, i ≠ f → outs !! i = Some (Some o) → o_err o = None) →
  exec outs sched (init (length outs)) = Some s →
  (∃ rest s', exec outs (sched ++ rest) (init (length outs)) = Some s' ∧
              is_Some (returned s')) ∧
  (∀ rest s' rs es e,
     exec outs (sched ++ rest) (init (length outs)) = Some s' →
     returned s' = Some (rs, es, e) →
     ∃ pre c post,
       collected s' = pre ++ c :: post ∧
       c_err_from c = f ∧ c_err c = Some msg ∧
       (post = [] → e = Some msg) ∧
       (post ≠ [] → e = None ∧ rs !! 0 = Some (c_res c) ∧ es !! 0 = Some (c_evt c)) ∧
       (aligned c → c_res c = o_response failed ∧ c_evt c = o_event failed) ∧
       (length outs = 1 →
          e = Some msg ∧ rs = [o_response failed] ∧ es = [o_event failed])).
Proof.
  intros Hall Hf Hmsg Hothers H.
  assert (1 ≤ length outs) as Hn by (apply lookup_lt_Some in Hf; lia).
  split.
  { destruct (reachable_invariants outs sched s Hn H) as (Hc & _).
    destruct (can_finish outs s Hall Hc) as (rest & s' & Hr & Hl).
    exists rest, s'. rewrite exec_app, H. split; [done|]. by apply exited_returned. }
  clear s H. intros rest s rs es e H Hret.
  destruct (returned_exited _ _ _ _ Hret) as (Hl & -> & -> & ->).
  destruct (reachable_invariants outs _ s Hn H) as (Hc & Hv & Ha).
  destruct (counted_exited _ _ Hc Hl) as (_ & _ & _ & _ & Pv & Pe & Pr).
  pose proof (cnt_exit _ _ Hc) as Hx. rewrite Hl in Hx.
  pose proof (val_log _ _ Hv) as Hlog. rewrite Forall_forall in Hlog.
  (* the round in which the error of [f] was read *)
  assert (f ∈ c_err_from <$> collected s) as Hin.
  { rewrite Pe. apply elem_of_seq. apply lookup_lt_Some in Hf. lia. }
  apply list_elem_of_fmap in Hin as (c & Hcf & Hcin).
  apply list_elem_of_split in Hcin as (pre & post & Hsplit).
  assert (NoDup (c_err_from <$> collected s)) as Hnd.
  { rewrite Pe. apply NoDup_seq. }
  rewrite Hsplit, fmap_app, fmap_cons in Hnd.
  apply NoDup_app in Hnd as (_ & Hpre & Hpost).
  apply NoDup_cons in Hpost as (Hpost & _).
  assert (∀ c', c' ∈ collected s → c_err_from c' ≠ f → c_err c' = None) as Hquiet.
  { intros c' Hc' Hne. destruct (Hlog c' Hc') as (He & _).
    apply sent_by_lookup in He as (o & Ho & <-). by eapply Hothers. }
  destruct (Hlog c) as (He & Hr & Hvv).
  { rewrite Hsplit. apply elem_of_app. right. left. }
  apply sent_by_lookup in He as (o & Ho & Hoe).
  rewrite <- Hcf, Hf in Ho. injection Ho as <-. rewrite Hmsg in Hoe.
  (* the fold over the rounds *)
  destruct (aggregate_one_failure (length outs) (triple <$> pre) (triple <$> post)
              msg (c_res c) (c_evt c)) as (rs & es & ret & Hagg & Hlast & Hearly).
  { rewrite length_app. simpl. rewrite !length_fmap.
    rewrite Hsplit, length_app in Hx. simpl in Hx. done. }
  { apply Forall_fmap, Forall_forall. intros c' Hc'. simpl. apply Hquiet.
    - rewrite Hsplit. apply elem_of_app. by left.
    - intros Heq. apply (Hpre (c_err_from c')).
      + by apply list_elem_of_fmap_2.
      + rewrite Heq, Hcf. left. }
  { apply Forall_fmap, Forall_forall. intros c' Hc'. simpl. apply Hquiet.
    - rewrite Hsplit. apply elem_of_app. right. by right.
    - intros Heq. apply Hpost. rewrite <- Hcf, <- Heq. by apply list_elem_of_fmap_2. }
  unfold aggregated in Ha. rewrite Hl, Hsplit, fmap_app, fmap_cons in Ha.
  assert ((rs, es, ret, true) = (resps s, ccEvents s, err s, true)) as Heq.
  { etrans; [symmetry; exact Hagg|]. etrans; [|exact Ha].
    unfold triple. by rewrite <- Hoe. }
  clear Ha Hagg. injection Heq as -> -> ->.
  exists pre, c, post. split; [done|]. split; [done|]. split; [done|].
  split.
  { intros ->. by destruct (Hlast eq_refl). }
  split.
  { intros Hne. apply Hearly. by destruct post. }
  split.
  { intros [H1 H2].
    apply sent_by_lookup in Hr as (o1 & Ho1 & <-).
    apply sent_by_lookup in Hvv as (o2 & Ho2 & <-).
    rewrite <- H2, <- H1, <- Hcf, Hf in Ho2. rewrite <- H1, <- Hcf, Hf in Ho1.
    by injection Ho1 as <-; injection Ho2 as <-. }
  intros H1. rewrite H1 in *. rewrite Hsplit, length_app in Hx. simpl in Hx.
  assert (pre = []) as -> by (apply length_zero_iff_nil; lia).
  assert (post = []) as -> by (apply length_zero_iff_nil; lia).
  destruct (Hlast eq_refl) as (-> & -> & ->). simpl.
  rewrite Hsplit in Pv, Pr. simpl in Pv, Pr.
  apply Permutation_singleton_r in Pv. apply Permutation_singleton_r in Pr.
  injection Pv as Pv. injection Pr as Pr.
  assert (f = 0) as -> by (apply lookup_lt_Some in Hf; lia).
  apply sent_by_lookup in Hr as (o1 & Ho1 & <-).
  apply sent_by_lookup in Hvv as (o2 & Ho2 & <-).
  rewrite Pr, Hf in Ho1. rewrite Pv, Hf in Ho2.
  by injection Ho1 as <-; injection Ho2 as <-.
Qed.

(** The error returned is the one read in the last round. *)
Lemma returned_error_is_last_read outs (sched : list Action) s
    (rs : list Response) (es : list ChaincodeEvent) (e : error) :
  1 ≤ length outs →
  exec outs sched (init (length outs)) = Some s →
  returned s = Some (rs, es, e) →
  ∃ c, last (collected s) = Some c ∧ e = c_err c.
Proof.
  intros Hn H Hret.
  destruct (returned_exited _ _ _ _ Hret) as (Hl & -> & -> & ->).
  destruct (reachable_invariants outs _ s Hn H) as (Hc & Hv & Ha).
  pose proof (cnt_exit _ _ Hc) as Hx. rewrite Hl in Hx.
  unfold aggregated in Ha. rewrite Hl in Ha.
  destruct (aggregate_shape (length outs) (triple <$> collected s) Hn)
    as (rs & es & Hagg & _); [rewrite length_fmap; lia|].
  rewrite Ha in Hagg. injection Hagg as _ _ ->.
  rewrite fmap_last.
  destruct (last (collected s)) as [c|] eqn:Hlast.
  - by exists c.
  - apply last_None in Hlast. rewrite Hlast in Hx. simpl in Hx. lia.
Qed.

(** A round with an error that is not the last one writes index 0 ... *)
Lemma round_overwrites (n : nat) (rs : list Response) (es : list ChaincodeEvent)
    (e0 : error) (msg : string) (r : Response) (v : ChaincodeEvent) :
  length rs + 1 < n →
  round n (rs, es, e0, false) (Some msg, r, v)
  = (<[0 := r]> (rs ++ [r]), <[0 := v]> (es ++ [v]), Some msg, false).
Proof.
  intros H. cbn [round]. rewrite length_app. simpl. by rewrite decide_False by lia.
Qed.

(** ... and the last round leaves before it gets there. *)
Lemma round_last_keeps (n : nat) (rs : list Response) (es : list ChaincodeEvent)
    (e0 : error) (msg : string) (r : Response) (v : ChaincodeEvent) :
  n ≤ length rs + 1 →
  round n (rs, es, e0, false) (Some msg, r, v)
  = (rs ++ [r], es ++ [v], Some msg, true).
Proof.
  intros H. cbn [round]. rewrite length_app. simpl. by rewrite decide_True by lia.
Qed.

(** With no input at all nothing is ever sent, the loop waits on [cErr] for
    ever, and [Execute] does not return. *)
Lemma empty_batch_never_returns (sched : list Action) s :
  exec [] sched (init 0 : State Response ChaincodeEvent) = Some s →
  sched = [] ∧ returned s = None.
Proof.
  destruct sched as [|[i|] rest]; simpl.
  - by intros [= <-].
  - done.
  - done.
Qed.

End CollectorFacts.

(** ** [Execute] end to end *)

(** When every backend call answers with a nil error, whatever [Execute]
    returns on a non-empty batch has one response and one event per input
    and a nil error. *)
Lemma Execute_all_succeed {Response ChaincodeEvent : Type}
    (backend : BackendCall → option (Outcome Response ChaincodeEvent))
    (roster : list ChaincodeSupport) (decorators : list Decorator)
    (txParams : TransactionParams) (name version : string)
    (props : list Proposal) (inputs : list nat) (h : gmap nat ChaincodeInput)
    (sched : list Action) (rs : list Response) (es : list ChaincodeEvent)
    (e : error) :
  inputs ≠ [] →
  (∀ call, ∃ o, backend call = Some o ∧ o_err o = None) →
  Execute backend roster decorators txParams name version props inputs h sched
    = Some (rs, es, e) →
  length rs = length inputs ∧ length es = length inputs ∧ e = None.
Proof.
  intros Hne Hok. unfold Execute. intros H.
  destruct (prepare _ _ _ _ _ _ _ _) as [[st calls]|] eqn:Hp; [|done].
  simpl in H.
  destruct (prepare_calls _ _ _ _ _ _ _ _ _ _ Hp) as (_ & Hlen & _).
  destruct (exec _ sched _) as [s|] eqn:Hs; [|done]. simpl in H.
  assert (length (backend <$> calls) = length inputs) as Hl
    by by rewrite length_fmap.
  rewrite <- Hl in *.
  eapply (returned_when_all_succeed (backend <$> calls) sched s); try done.
  - destruct inputs; [done|]. rewrite Hl. simpl. lia.
  - apply Forall_fmap, Forall_forall. intros call _. apply Hok.
Qed.

(** ** Concrete batches *)

Lemma collecting_loop_terminates_witness :
  ∃ s, exec both_succeed (one_by_one [1; 0]) (init 2) = Some s ∧
       loop s = Exited ∧ length (resps s) = 2.
Proof.
  destruct (exec both_succeed (one_by_one [1; 0]) (init 2)) as [s|] eqn:H;
    [|vm_compute in H; discriminate].
  exists s. split; [reflexivity|].
  destruct (collecting_loop_terminates both_succeed (one_by_one [1; 0]) s
              ltac:(simpl; lia) ltac:(repeat constructor; by eexists) H)
    as (_ & Hlen & _ & _ & _ & Hresps & _).
  assert (loop s = Exited) as Hl by (apply Hlen; reflexivity).
  split; [exact Hl|]. by apply Hresps.
Defined.

Lemma all_tasks_succeed_witness :
  ∃ s, exec both_succeed (one_by_one [1; 0]) (init 2) = Some s ∧
       ∀ rs es e, returned s = Some (rs, es, e) →
                  length rs = 2 ∧ length es = 2 ∧ e = None.
Proof.
  destruct (exec both_succeed (one_by_one [1; 0]) (init 2)) as [s|] eqn:H;
    [|vm_compute in H; discriminate].
  exists s. split; [reflexivity|].
  intros rs es e Hret.
  destruct (all_tasks_succeed both_succeed (one_by_one [1; 0]) s
              ltac:(simpl; lia)
              ltac:(repeat constructor; eexists; split; reflexivity) H)
    as (_ & Hall).
  apply (Hall [] s rs es e); [|exact Hret].
  rewrite app_nil_r. exact H.
Defined.

Lemma one_task_fails_witness :
  ∃ s rs es e,
    exec first_fails (one_by_one [0; 1]) (init 2) = Some s ∧
    returned s = Some (rs, es, e) ∧
    ∃ pre c post, collected s = pre ++ c :: post ∧ c_err_from c = 0 ∧
                  c_err c = Some "boom".
Proof.
  destruct (exec first_fails (one_by_one [0; 1]) (init 2)) as [s|] eqn:H;
    [|vm_compute in H; discriminate].
  destruct (returned s) as [[[rs es] e]|] eqn:Hret.
  2:{ vm_compute in H. injection H as <-. vm_compute in Hret. discriminate. }
  exists s, rs, es, e. split; [reflexivity|]. split; [exact Hret|].
  destruct (one_task_fails first_fails (one_by_one [0; 1]) s 0
              (mkOutcome "R0" "E0" (Some "boom")) "boom"
              ltac:(repeat constructor; by eexists) eq_refl eq_refl) as (_ & Hall).
  - intros [|[|i]] o Hi Ho; [done| |done]. by injection Ho as <-.
  - exact H.
  - destruct (Hall [] s rs es e) as (pre & c & post & Hs & Hf & Hm & _).
    + rewrite app_nil_r. exact H.
    + exact Hret.
    + by exists pre, c, post.
Defined.

(** C1 as the spec words it fails on either order of completion. When the
    failing goroutine completes first, [Execute] returns a nil error; when
    it completes last, index 0 holds the response and event of the other
    goroutine. *)
Lemma single_failure_not_reported_as_claimed :
  (exec first_fails (one_by_one [0; 1]) (init 2) ≫= returned)
    = Some (["R0"; "R1"], ["E0"; "E1"], None) ∧
  (exec first_fails (one_by_one [1; 0]) (init 2) ≫= returned)
    = Some (["R1"; "R0"], ["E1"; "E0"], Some "boom") ∧
  ¬ (∀ (outs : list (option (Outcome string string))) (sched : list Action)
       (f : nat) (failed : Outcome string string) (msg : string)
       (rs es : list string) (e : error),
       outs !! f = Some (Some failed) →
       o_err failed = Some msg →
       (∀ i o, i ≠ f → outs !! i = Some (Some o) → o_err o = None) →
       (exec outs sched (init (length outs)) ≫= returned) = Some (rs, es, e) →
       e = Some msg ∧
       rs !! 0 = Some (o_response failed) ∧ es !! 0 = Some (o_event failed)).
Proof.
  split; [reflexivity|]. split; [reflexivity|].
  intros H.
  destruct (H first_fails (one_by_one [0; 1]) 0 (mkOutcome "R0" "E0" (Some "boom"))
              "boom" ["R0"; "R1"] ["E0"; "E1"] None eq_refl eq_refl)
    as (He & _); [|reflexivity|discriminate].
  intros [|[|i]] o Hi Ho; [done| |done]. by injection Ho as <-.
Qed.

(** C2 at a batch of three whose second backend fails. Read in the last
    round, the failing outcome does not reach index 0: [R2] stays there.
    Read in an earlier round it does, and [R2] is lost. In both cases the
    error returned is the one read last. *)
Theorem failure_in_last_round_misses_index_0 :
  (exec second_of_three_fails (one_by_one [2; 0; 1]) (init 3) ≫= returned)
    = Some (["R2"; "R0"; "R1"], ["E2"; "E0"; "E1"], Some "boom") ∧
  (exec second_of_three_fails (one_by_one [2; 1; 0]) (init 3) ≫= returned)
    = Some (["R1"; "R1"; "R0"], ["E1"; "E1"; "E0"], None).
Proof. split; reflexivity. Qed.

(** The three channels are filled independently, so a round may pair the
    error of one goroutine with the response and event of another: here the
    error of goroutine 0 is read in the first round, next to the response
    and event of goroutine 1, and it is the nil error of goroutine 1 that is
    returned. *)
Lemma rounds_can_mix_goroutines :
  exec first_fails
    [Run 0; Run 1; Run 1; Run 0; Run 0; Run 1; Run 1; Run 0;
     Collect; Collect; Collect; Collect; Collect; Collect] (init 2)
  ≫= (λ s, returned s ≫= λ r, Some (r, c_err_from <$> collected s,
                                    c_res_from <$> collected s))
  = Some ((["R1"; "R0"], ["E1"; "E0"], None), [0; 1], [1; 0]).
Proof. vm_compute. reflexivity. Qed.

(** ** Goroutines that complete one after another *)

Section SequentialFacts.
Context {Response ChaincodeEvent : Type}.
Implicit Types s : State Response ChaincodeEvent.
Implicit Types outs : list (option (Outcome Response ChaincodeEvent)).

(** Goroutine [i] runs from its backend call to its end while the channels
    are empty, and the loop reads its three values. *)
Lemma run_one outs (i : nat) (o : Outcome Response ChaincodeEvent) s :
  outs !! i = Some (Some o) →
  pcs s !! i = Some Calling →
  cCCEvt s = [] → cErr s = [] → cRes s = [] → loop s = RecvErr →
  ∃ s', exec outs [Run i; Run i; Run i; Run i; Collect; Collect; Collect] s = Some s' ∧
        pcs s' = <[i := Returned]> (pcs s) ∧
        cCCEvt s' = [] ∧ cErr s' = [] ∧ cRes s' = [] ∧
        collected s' = collected s ++ [own_round i o] ∧
        (loop s' = RecvErr ∨ loop s' = Exited).
Proof.
  intros Ho Hpc Hv He Hr Hl.
  destruct s as [pcs0 cRes0 cCCEvt0 cErr0 loop0 resps0 ccEvents0 err0 log0].
  simpl in *. subst.
  assert (i < length pcs0) as Hi by by eapply lookup_lt_Some.
  unfold exec, step, step_task. cbn [pcs]. rewrite Hpc, Ho. simpl.
  rewrite list_lookup_insert_eq by done. simpl.
  rewrite list_lookup_insert_eq by (by rewrite length_insert). simpl.
  rewrite list_lookup_insert_eq by (by rewrite !length_insert). simpl.
  unfold finish_round. simpl.
  rewrite !list_insert_insert_eq.
  unfold own_round.
  case_decide; [|destruct (o_err o) eqn:Hoe]; eexists; (split; [reflexivity|]);
    simpl; rewrite ?Hoe; auto 10.
Qed.

Lemma one_by_one_cons (i : nat) (rest : list nat) :
  one_by_one (i :: rest)
  = [Run i; Run i; Run i; Run i; Collect; Collect; Collect] ++ one_by_one rest.
Proof. reflexivity. Qed.

Lemma run_in_order outs (order : list nat)
    (os : list (Outcome Response ChaincodeEvent)) s :
  counted (length outs) s →
  NoDup order →
  Forall2 (λ i o, outs !! i = Some (Some o)) order os →
  (∀ i, i ∈ order → pcs s !! i = Some Calling) →
  cCCEvt s = [] → cErr s = [] → cRes s = [] →
  (order ≠ [] → loop s = RecvErr) →
  ∃ s', exec outs (one_by_one order) s = Some s' ∧
        collected s' = collected s ++ zip_with own_round order os.
Proof.
  intros Hc Hnd Hos. revert s Hc Hnd.
  induction Hos as [|i o order os Ho Hos IH]; intros s Hc Hnd Hpcs Hv He Hr Hl.
  - exists s. simpl. by rewrite app_nil_r.
  - apply NoDup_cons in Hnd as [Hni Hnd].
    destruct (run_one outs i o s Ho) as (s1 & H1 & Hp1 & Hv1 & He1 & Hr1 & Hlog1 & Hl1);
      try done.
    { apply Hpcs. left. }
    { by apply Hl. }
    pose proof (counted_exec _ _ _ _ Hc H1) as Hc1.
    assert (∀ j, j ∈ order → pcs s1 !! j = Some Calling) as Hpcs1.
    { intros j Hj. rewrite Hp1, list_lookup_insert_ne by (intros ->; done).
      apply Hpcs. by right. }
    destruct (IH s1 Hc1 Hnd Hpcs1 Hv1 He1 Hr1) as (s' & H' & Hlog').
    { intros Hne. destruct Hl1 as [Hl1|Hl1]; [done|].
      destruct (counted_exited _ _ Hc1 Hl1) as (Hret & _).
      destruct order as [|j order']; [done|].
      assert (Calling ∈ pcs s1) as Hin.
      { eapply list_elem_of_lookup_2. apply Hpcs1. left. }
      by apply Hret in Hin. }
    exists s'. rewrite one_by_one_cons, exec_app, H1. simpl.
    split; [done|]. rewrite Hlog', Hlog1, <- app_assoc. done.
Qed.

Lemma triple_own_rounds (order : list nat)
    (os : list (Outcome Response ChaincodeEvent)) :
  length order = length os →
  triple <$> zip_with own_round order os = outcome_triple <$> os.
Proof.
  revert os. induction order as [|i order IH]; intros [|o os] Hlen; try done.
  simpl in *. f_equal. apply IH. lia.
Qed.

(** Completing in the order [order], the goroutines and the loop get to
    the exit, every round is that of one goroutine, and the variables of
    the loop are the fold of [round] over the outcomes in that order. *)
Lemma sequential_completion outs (order : list nat)
    (os : list (Outcome Response ChaincodeEvent)) :
  1 ≤ length outs →
  order ≡ₚ seq 0 (length outs) →
  Forall2 (λ i o, outs !! i = Some (Some o)) order os →
  ∃ s rs es e,
    exec outs (one_by_one order) (init (length outs)) = Some s ∧
    collected s = zip_with own_round order os ∧
    returned s = Some (rs, es, e) ∧
    aggregate (length outs) (outcome_triple <$> os) = (rs, es, e, true).
Proof.
  intros Hn Hperm Hos.
  destruct (run_in_order outs order os (init (length outs))) as (s & H & Hlog);
    try done.
  - by apply counted_init.
  - rewrite Hperm. apply NoDup_seq.
  - intros i Hi. rewrite Hperm in Hi. apply elem_of_seq in Hi. simpl.
    apply lookup_replicate. split; [done|lia].
  - simpl in Hlog.
    destruct (reachable_invariants outs _ s Hn H) as (Hc & _ & Ha).
    pose proof (cnt_exit _ _ Hc) as Hx.
    pose proof (Forall2_length _ _ _ Hos) as Hlen.
    assert (length (collected s) = length outs) as Hfull.
    { rewrite Hlog, length_zip_with, <- Hlen, Nat.min_id, Hperm. apply length_seq. }
    assert (loop s = Exited) as Hl by (destruct (loop s); try done; lia).
    unfold aggregated in Ha. rewrite Hl, Hlog, triple_own_rounds in Ha by done.
    exists s, (resps s), (ccEvents s), (err s).
    split; [done|]. split; [done|]. split; [|done].
    unfold returned. by rewrite Hl.
Qed.

Variable backend : BackendCall → option (Outcome Response ChaincodeEvent).

(** X1: when [Execute] gets as far as starting its goroutines on a
    non-empty batch and the goroutines complete one after another, in any
    order [order] of the indices, each backend call returning, then
    [Execute] returns, and what it returns is the fold of the body of the
    collecting loop over the outcomes taken in that order of completion. *)
Theorem Execute_sequential (roster : list ChaincodeSupport)
    (decorators : list Decorator) (txParams : TransactionParams)
    (name version : string) (props : list Proposal) (inputs : list nat)
    (h : gmap nat ChaincodeInput) (st : Decorated) (calls : list BackendCall)
    (order : list nat) (os : list (Outcome Response ChaincodeEvent)) :
  prepare roster decorators txParams name version props inputs h = Some (st, calls) →
  inputs ≠ [] →
  order ≡ₚ seq 0 (length inputs) →
  Forall2 (λ i o, backend <$> calls !! i = Some (Some o)) order os →
  ∃ rs es e,
    Execute backend roster decorators txParams name version props inputs h
      (one_by_one order) = Some (rs, es, e) ∧
    aggregate (length inputs) (outcome_triple <$> os) = (rs, es, e, true).
Proof.
  intros Hp Hne Hperm Hos.
  destruct (prepare_calls _ _ _ _ _ _ _ _ _ _ Hp) as (_ & Hlen & _).
  assert (length (backend <$> calls) = length inputs) as Hl
    by by rewrite length_fmap.
  destruct (sequential_completion (backend <$> calls) order os)
    as (s & rs & es & e & Hs & _ & Hret & Hagg).
  - rewrite Hl. destruct inputs; [done|simpl; lia].
  - by rewrite Hl.
  - eapply Forall2_impl; [exact Hos|]. intros i o Hi. by rewrite list_lookup_fmap.
  - exists rs, es, e. rewrite Hl in Hagg, Hs. split; [|done].
    unfold Execute. rewrite Hp. simpl. rewrite Hs. done.
Qed.

End SequentialFacts.

Lemma Execute_sequential_witness :
  ∃ rs es e,
    Execute sample_backend sample_roster [stamp "a"] sample_txParams "mycc" "1.0"
      sample_props [10; 11] sample_store (one_by_one [1; 0]) = Some (rs, es, e).
Proof.
  destruct (prepare sample_roster [stamp "a"] sample_txParams "mycc" "1.0"
              sample_props [10; 11] sample_store) as [[st calls]|] eqn:Hp;
    [|vm_compute in Hp; discriminate].
  assert (Forall2 (λ i o, sample_backend <$> calls !! i = Some (Some o)) [1; 0]
            [mkOutcome "peer1" "1.0-peer1" None; mkOutcome "peer0" "1.0-peer0" None])
    as Hos.
  { vm_compute in Hp. injection Hp as <- <-. repeat constructor. }
  destruct (Execute_sequential sample_backend _ _ _ _ _ _ _ _ _ _ [1; 0] _ Hp
              ltac:(discriminate) ltac:(simpl; apply perm_swap) Hos)
    as (rs & es & e & HE & _).
  exists rs, es, e. exact HE.
Defined.

(** ** Which round ends up at which index *)

Section SlotFacts.
Context {Response ChaincodeEvent : Type}.
Implicit Types s : State Response ChaincodeEvent.
Implicit Types outs : list (option (Outcome Response ChaincodeEvent)).

(** Before the exit: every index from 1 on holds the values of the round
    of that number, and index 0 those of the last round that carried an
    error, or of the first round when none did. *)
Lemma aggregate_prefix_slots (n : nat) (l : list (error * Response * ChaincodeEvent)) :
  length l < n →
  ∃ rs es,
    aggregate n l = (rs, es, default None ((λ c, c.1.1) <$> last l), false) ∧
    length rs = length l ∧ length es = length l ∧
    (∀ j, 1 ≤ j → rs !! j = (λ c, c.1.2) <$> l !! j ∧ es !! j = snd <$> l !! j) ∧
    ∃ m, rs !! 0 = (λ c, c.1.2) <$> l !! m ∧ es !! 0 = snd <$> l !! m ∧
         (m = 0 ∨ ∃ c, l !! m = Some c ∧ c.1.1 ≠ None) ∧
         (∀ k c, m < k → l !! k = Some c → c.1.1 = None).
Proof.
  unfold error in *.
  induction l as [|[[e r] v] l IH] using rev_ind; intros Hlen.
  - exists [], []. unfold aggregate. simpl. repeat split; try done.
    exists 0. repeat split; try done. by left.
  - rewrite length_app in Hlen. simpl in Hlen.
    destruct IH as (rs & es & Hagg & Hrs & Hes & Hpos & m & Hr0 & He0 & Hm & Hquiet);
      [lia|].
    assert (m < length l ∨ l = []) as Hml.
    { destruct Hm as [->|(c & Hc & _)].
      - destruct l; [by right|left; simpl; lia].
      - left. by eapply lookup_lt_Some. }
    rewrite aggregate_snoc, Hagg, last_snoc. cbn [round length]. rewrite length_app.
    simpl. rewrite decide_False by lia.
    assert (∀ j, 1 ≤ j →
              (rs ++ [r]) !! j = (λ c, c.1.2) <$> (l ++ [(e, r, v)]) !! j ∧
              (es ++ [v]) !! j = snd <$> (l ++ [(e, r, v)]) !! j) as Hpos'.
    { intros j Hj. destruct (decide (j < length l)) as [Hlt|Hge].
      - rewrite !lookup_app_l by lia. by apply Hpos.
      - rewrite !lookup_app_r by lia. rewrite Hrs, Hes.
        by destruct (j - length l) as [|[|?]]. }
    destruct e as [msg|].
    + eexists _, _. split; [done|].
      rewrite !length_insert, !length_app. simpl.
      split; [lia|]. split; [lia|]. split.
      { intros j Hj. rewrite !list_lookup_insert_ne by lia. by apply Hpos'. }
      exists (length l).
      rewrite !list_lookup_insert_eq by (rewrite length_app; simpl; lia).
      rewrite list_lookup_middle by done. simpl.
      split; [done|]. split; [done|]. split.
      { right. eexists. split; [reflexivity|done]. }
      intros k c Hk Hc. apply lookup_lt_Some in Hc. rewrite length_app in Hc.
      simpl in Hc. lia.
    + eexists _, _. split; [done|].
      rewrite !length_app. simpl.
      split; [lia|]. split; [lia|]. split; [done|].
      destruct Hml as [Hlt| ->].
      * exists m. rewrite !lookup_app_l by lia.
        split; [done|]. split; [done|]. split.
        { destruct Hm as [->|(c & Hc & Hne)]; [by left|right].
          by exists c. }
        intros k c Hk Hc. destruct (decide (k < length l)) as [Hkl|Hkl].
        -- rewrite lookup_app_l in Hc by done. by eapply Hquiet.
        -- rewrite lookup_app_r in Hc by lia.
           destruct (k - length l) as [|?]; [|done]. by injection Hc as <-.
      * destruct rs; [|done]. destruct es; [|done].
        exists 0. simpl. split; [done|]. split; [done|]. split; [by left|].
        intros [|k] c Hk Hc; [lia|done].
Qed.

(** At the exit: the last round only appends. *)
Lemma aggregate_slots (n : nat) (l : list (error * Response * ChaincodeEvent)) :
  1 ≤ n → length l = n →
  ∃ rs es,
    aggregate n l = (rs, es, default None ((λ c, c.1.1) <$> last l), true) ∧
    (∀ j, 1 ≤ j → rs !! j = (λ c, c.1.2) <$> l !! j ∧ es !! j = snd <$> l !! j) ∧
    ∃ m, rs !! 0 = (λ c, c.1.2) <$> l !! m ∧ es !! 0 = snd <$> l !! m ∧
         (m = 0 ∨ (m + 1 < n ∧ ∃ c, l !! m = Some c ∧ c.1.1 ≠ None)) ∧
         (∀ k c, m < k → k + 1 < n → l !! k = Some c → c.1.1 = None).
Proof.
  intros Hn Hlen.
  destruct l as [|[[e r] v] l _] using rev_ind; [simpl in Hlen; lia|].
  rewrite length_app in Hlen. simpl in Hlen.
  destruct (aggregate_prefix_slots n l)
    as (rs & es & Hagg & Hrs & Hes & Hpos & m & Hr0 & He0 & Hm & Hquiet); [lia|].
  unfold error in *.
  assert (m < length l ∨ l = []) as Hml.
  { destruct Hm as [->|(c & Hc & _)].
    - destruct l; [by right|left; simpl; lia].
    - left. by eapply lookup_lt_Some. }
  rewrite aggregate_snoc, Hagg, last_snoc. cbn [round length]. rewrite length_app.
  simpl. rewrite decide_True by lia.
  eexists _, _. split; [done|]. split.
  { intros j Hj. destruct (decide (j < length l)) as [Hlt|Hge].
    - rewrite !lookup_app_l by lia. by apply Hpos.
    - rewrite !lookup_app_r by lia. rewrite Hrs, Hes.
      by destruct (j - length l) as [|[|?]]. }
  destruct Hml as [Hlt| ->].
  - exists m. rewrite !lookup_app_l by lia.
    split; [done|]. split; [done|]. split.
    { destruct Hm as [->|(c & Hc & Hne)]; [by left|right].
      split; [lia|]. by exists c. }
    intros k c Hk Hkn Hc. rewrite lookup_app_l in Hc by lia. by eapply Hquiet.
  - destruct rs; [|done]. destruct es; [|done].
    exists 0. simpl. split; [done|]. split; [done|]. split; [by left|].
    intros k c Hk Hkn Hc. simpl in *. lia.
Qed.

(** X2: whenever [Execute] returns on a non-empty batch, under any
    interleaving: every index [j >= 1] of the two collections holds the
    response and the event received in round [j] of the loop; index 0 holds
    the response and the event received in round [m], where [m] is the last
    round before the final one in which a non-nil error was received, and
    [m = 0] when there is no such round. *)
Theorem returned_collections outs (sched : list Action) s
    (rs : list Response) (es : list ChaincodeEvent) (e : error) :
  1 ≤ length outs →
  exec outs sched (init (length outs)) = Some s →
  returned s = Some (rs, es, e) →
  (∀ j, 1 ≤ j → rs !! j = c_res <$> collected s !! j ∧
                es !! j = c_evt <$> collected s !! j) ∧
  ∃ m, rs !! 0 = c_res <$> collected s !! m ∧
       es !! 0 = c_evt <$> collected s !! m ∧
       (m = 0 ∨ (m + 1 < length outs ∧
                 ∃ c, collected s !! m = Some c ∧ c_err c ≠ None)) ∧
       (∀ k c, m < k → k + 1 < length outs →
               collected s !! k = Some c → c_err c = None).
Proof.
  intros Hn H Hret.
  destruct (returned_exited _ _ _ _ Hret) as (Hl & -> & -> & ->).
  destruct (reachable_invariants outs _ s Hn H) as (Hc & _ & Ha).
  pose proof (cnt_exit _ _ Hc) as Hx. rewrite Hl in Hx.
  unfold aggregated in Ha. rewrite Hl in Ha.
  destruct (aggregate_slots (length outs) (triple <$> collected s) Hn)
    as (rs & es & Hagg & Hpos & m & Hr0 & He0 & Hm & Hquiet);
    [by rewrite length_fmap|].
  rewrite Ha in Hagg. injection Hagg as <- <- _.
  split.
  { intros j Hj. destruct (Hpos j Hj) as [-> ->].
    rewrite list_lookup_fmap. by destruct (collected s !! j). }
  exists m. rewrite Hr0, He0, list_lookup_fmap.
  split; [by destruct (collected s !! m)|].
  split; [by destruct (collected s !! m)|].
  split.
  { destruct Hm as [->|(Hlt & c & Hcm & Hne)]; [by left|right].
    split; [done|]. rewrite list_lookup_fmap in Hcm.
    destruct (collected s !! m) as [c'|]; [|done].
    exists c'. split; [done|]. by injection Hcm as <-. }
  intros k c Hk Hkn Hck.
  apply (Hquiet k (triple c) Hk Hkn). by rewrite list_lookup_fmap, Hck.
Qed.

(** X3: whenever [Execute] returns on a non-empty batch, the error it
    returns is the one the backend gave to the goroutine whose error was
    received in the last round; the errors of all other goroutines are
    dropped. *)
Theorem returned_error_source outs (sched : list Action) s
    (rs : list Response) (es : list ChaincodeEvent) (e : error) :
  1 ≤ length outs →
  exec outs sched (init (length outs)) = Some s →
  returned s = Some (rs, es, e) →
  ∃ c o, last (collected s) = Some c ∧
         outs !! c_err_from c = Some (Some o) ∧
         e = o_err o.
Proof.
  intros Hn H Hret.
  destruct (returned_error_is_last_read outs sched s rs es e Hn H Hret)
    as (c & Hlast & ->).
  destruct (reachable_invariants outs _ s Hn H) as (_ & Hv & _).
  pose proof (val_log _ _ Hv) as Hlog. rewrite Forall_forall in Hlog.
  destruct (Hlog c) as (He & _); [by apply last_Some_elem_of|].
  apply sent_by_lookup in He as (o & Ho & <-).
  by exists c, o.
Qed.

End SlotFacts.

Lemma returned_collections_witness :
  ∃ s rs es e,
    exec second_of_three_fails (one_by_one [2; 1; 0]) (init 3) = Some s ∧
    returned s = Some (rs, es, e) ∧
    ∀ j, 1 ≤ j → rs !! j = c_res <$> collected s !! j ∧
                 es !! j = c_evt <$> collected s !! j.
Proof.
  destruct (exec second_of_three_fails (one_by_one [2; 1; 0]) (init 3))
    as [s|] eqn:H; [|vm_compute in H; discriminate].
  destruct (returned s) as [[[rs es] e]|] eqn:Hret.
  2:{ vm_compute in H. injection H as <-. vm_compute in Hret. discriminate. }
  exists s, rs, es, e. split; [reflexivity|]. split; [exact Hret|].
  exact (proj1 (returned_collections second_of_three_fails (one_by_one [2; 1; 0])
                  s rs es e ltac:(simpl; lia) H Hret)).
Defined.

Lemma returned_error_source_witness :
  ∃ s rs es e,
    exec first_fails (one_by_one [1; 0]) (init 2) = Some s ∧
    returned s = Some (rs, es, e) ∧
    ∃ c o, last (collected s) = Some c ∧
           first_fails !! c_err_from c = Some (Some o) ∧ e = o_err o.
Proof.
  destruct (exec first_fails (one_by_one [1; 0]) (init 2))
    as [s|] eqn:H; [|vm_compute in H; discriminate].
  destruct (returned s) as [[[rs es] e]|] eqn:Hret.
  2:{ vm_compute in H. injection H as <-. vm_compute in Hret. discriminate. }
  exists s, rs, es, e. split; [reflexivity|]. split; [exact Hret|].
  exact (returned_error_source first_fails (one_by_one [1; 0]) s rs es e
           ltac:(simpl; lia) H Hret).
Defined.

(** ** A backend call that never returns *)

Section AnswerFacts.
Context {Response ChaincodeEvent : Type}.
Implicit Types s : State Response ChaincodeEvent.
Implicit Types outs : list (option (Outcome Response ChaincodeEvent)).

Lemma stays_calling_step outs (a : Action) (i : nat) s s' :
  outs !! i = Some None →
  pcs s !! i = Some Calling →
  step outs a s = Some s' →
  pcs s' !! i = Some Calling.
Proof.
  intros Hout Hpc H. destruct a as [j|].
  - unfold step, step_task in H.
    destruct (decide (j = i)) as [->|Hne].
    { rewrite Hpc, Hout in H. done. }
    destruct (pcs s !! j) as [pc|]; [|done]. simpl in H.
    destruct (mjoin (outs !! j)) as [o|]; [|done]. simpl in H.
    destruct pc; repeat case_decide; try done; injection H as <-; simpl;
      by rewrite list_lookup_insert_ne.
  - unfold step, step_loop in H.
    destruct (loop s); [destruct (cErr s) as [|[??]?] | destruct (cRes s) as [|[??]?]
                       | destruct (cCCEvt s) as [|[??]?] | ]; try done;
      injection H as <-; try done.
    unfold finish_round. case_decide; [done|]. by destruct (err s).
Qed.

Lemma stays_calling_exec outs (sched : list Action) (i : nat) s s' :
  outs !! i = Some None →
  pcs s !! i = Some Calling →
  exec outs sched s = Some s' →
  pcs s' !! i = Some Calling.
Proof.
  intros Hout. revert s. induction sched as [|a rest IH]; intros s Hpc H; simpl in H.
  - by injection H as <-.
  - destruct (step outs a s) as [s1|] eqn:H1; [|done]. simpl in H.
    apply (IH s1); [|done]. by eapply stays_calling_step.
Qed.

(** The loop leaves only when every backend call has returned. *)
Lemma exited_needs_answers outs (sched : list Action) s :
  exec outs sched (init (length outs)) = Some s →
  loop s = Exited →
  Forall is_Some outs.
Proof.
  intros H Hl. apply Forall_lookup. intros i [o|] Hi; [by eexists|].
  assert (1 ≤ length outs) as Hn by (apply lookup_lt_Some in Hi; lia).
  assert (pcs s !! i = Some Calling) as Hpc.
  { eapply stays_calling_exec; [exact Hi| |exact H].
    simpl. apply lookup_replicate. split; [done|]. by eapply lookup_lt_Some. }
  destruct (reachable_invariants outs _ s Hn H) as (Hc & _).
  destruct (counted_exited _ _ Hc Hl) as (Hret & _).
  assert (Calling = Returned) by (apply Hret; by eapply list_elem_of_lookup_2).
  done.
Qed.

(** X4: there is no timeout. If the backend call of one goroutine never
    returns, then under no interleaving, however long, does [Execute] get
    to its [return]. *)
Theorem hung_backend_blocks outs (sched : list Action) (i : nat) s :
  outs !! i = Some None →
  exec outs sched (init (length outs)) = Some s →
  returned s = None.
Proof.
  intros Hout H. unfold returned. destruct (loop s) eqn:Hl; try done.
  pose proof (exited_needs_answers outs sched s H Hl) as Hall.
  rewrite Forall_lookup in Hall. by destruct (Hall i None Hout).
Qed.

(** ** When no backend fails *)

Lemma lookup_all {A : Type} (l : list A) :
  (λ i, l !! i) <$> seq 0 (length l) = Some <$> l.
Proof.
  apply list_eq. intros i. rewrite !list_lookup_fmap.
  destruct (decide (i < length l)) as [Hlt|Hge].
  - rewrite lookup_seq_lt by done. simpl.
    destruct (lookup_lt_is_Some_2 l i Hlt) as [x ->]. done.
  - rewrite lookup_seq_ge by lia. rewrite lookup_ge_None_2 by lia. done.
Qed.

Lemma Permutation_Some_inv {A : Type} (l1 l2 : list A) :
  Some <$> l1 ≡ₚ Some <$> l2 → l1 ≡ₚ l2.
Proof.
  intros H. apply Permutation_map_inv in H as (l3 & H3 & Hp).
  apply (inj (fmap Some)) in H3. subst. by symmetry.
Qed.

(** The values read on one channel are those of the goroutines, each one
    once. *)
Lemma collected_values (os : list (Outcome Response ChaincodeEvent))
    {V : Type} (field : Outcome Response ChaincodeEvent → V)
    (from : Collected Response ChaincodeEvent → nat)
    (value : Collected Response ChaincodeEvent → V)
    (log : list (Collected Response ChaincodeEvent)) :
  Forall (λ c, sent_by (Some <$> os) field (from c) (value c)) log →
  from <$> log ≡ₚ seq 0 (length os) →
  value <$> log ≡ₚ field <$> os.
Proof.
  intros Hgen Hperm. apply Permutation_Some_inv.
  assert (Some <$> (value <$> log) = (λ i, field <$> os !! i) <$> (from <$> log)) as ->.
  { rewrite <- !list_fmap_compose. apply Forall_fmap_ext_1.
    eapply Forall_impl; [exact Hgen|]. intros c Hc. simpl.
    unfold sent_by in Hc. rewrite list_lookup_fmap in Hc.
    destruct (os !! from c); simpl in *; congruence. }
  rewrite Hperm.
  assert ((λ i, field <$> os !! i) <$> seq 0 (length os)
          = fmap field <$> ((λ i, os !! i) <$> seq 0 (length os))) as ->.
  { by rewrite <- list_fmap_compose. }
  rewrite lookup_all, <- !list_fmap_compose. done.
Qed.

(** X5: when every backend call returns a nil error, whatever [Execute]
    returns on a non-empty batch, under any interleaving, holds the
    response of every goroutine exactly once and the event of every
    goroutine exactly once (in the order they were received), and a nil
    error. *)
Theorem success_loses_nothing (os : list (Outcome Response ChaincodeEvent))
    (sched : list Action) s
    (rs : list Response) (es : list ChaincodeEvent) (e : error) :
  1 ≤ length os →
  Forall (λ o, o_err o = None) os →
  exec (Some <$> os) sched (init (length os)) = Some s →
  returned s = Some (rs, es, e) →
  rs ≡ₚ o_response <$> os ∧ es ≡ₚ o_event <$> os ∧ e = None.
Proof.
  intros Hn Hok H Hret.
  set (outs := Some <$> os) in *.
  assert (length outs = length os) as Hlen by apply length_fmap.
  rewrite <- Hlen in *.
  destruct (returned_exited _ _ _ _ Hret) as (Hl & -> & -> & ->).
  destruct (reachable_invariants outs _ s Hn H) as (Hc & Hv & Ha).
  destruct (counted_exited _ _ Hc Hl) as (_ & _ & _ & _ & Pv & Pe & Pr).
  pose proof (cnt_exit _ _ Hc) as Hx. rewrite Hl in Hx.
  pose proof (val_log _ _ Hv) as Hlog.
  assert (Forall (λ c, c.1.1 = None) (triple <$> collected s)) as Hquiet.
  { apply Forall_fmap. eapply Forall_impl; [exact Hlog|].
    intros c (He & _). simpl. apply sent_by_lookup in He as (o & Ho & <-).
    unfold outs in Ho. rewrite list_lookup_fmap in Ho.
    destruct (os !! c_err_from c) as [o'|] eqn:Ho'; [|done].
    injection Ho as <-. rewrite Forall_forall in Hok. apply Hok.
    by eapply list_elem_of_lookup_2. }
  destruct (foldl_round_quiet (length outs) (triple <$> collected s) [] [] None Hquiet)
    as (d & Hd & _); [rewrite length_fmap; simpl; lia|].
  unfold aggregated in Ha. rewrite Hl in Ha. unfold aggregate in Ha.
  rewrite Ha in Hd. simpl in Hd. injection Hd as Hrs Hes He _.
  rewrite Hrs, Hes, He. rewrite Hlen in *.
  split; [|split].
  - rewrite <- !list_fmap_compose.
    apply (collected_values os o_response c_res_from); [|done].
    eapply Forall_impl; [exact Hlog|]. by intros c (_ & Hr & _).
  - rewrite <- !list_fmap_compose.
    apply (collected_values os o_event c_evt_from); [|done].
    eapply Forall_impl; [exact Hlog|]. by intros c (_ & _ & Hev).
  - destruct (collected s); [simpl in Hx; lia|done].
Qed.

End AnswerFacts.

Lemma hung_backend_blocks_witness :
  ∃ s, exec second_hangs [Run 0; Run 0; Run 0; Run 0; Collect; Collect; Collect]
         (init 2) = Some s ∧
       returned s = None.
Proof.
  destruct (exec second_hangs [Run 0; Run 0; Run 0; Run 0; Collect; Collect; Collect]
              (init 2)) as [s|] eqn:H; [|vm_compute in H; discriminate].
  exists s. split; [reflexivity|].
  exact (hung_backend_blocks second_hangs _ 1 s eq_refl H).
Defined.

Lemma success_loses_nothing_witness :
  ∃ s rs es e,
    exec (Some <$> [mkOutcome "R0" "E0" None; mkOutcome "R1" "E1" None])
      (one_by_one [1; 0]) (init 2) = Some s ∧
    returned s = Some (rs, es, e) ∧
    rs ≡ₚ ["R0"; "R1"] ∧ es ≡ₚ ["E0"; "E1"] ∧ e = None.
Proof.
  destruct (exec (Some <$> [mkOutcome "R0" "E0" None; mkOutcome "R1" "E1" None])
              (one_by_one [1; 0]) (init 2)) as [s|] eqn:H;
    [|vm_compute in H; discriminate].
  destruct (returned s) as [[[rs es] e]|] eqn:Hret.
  2:{ vm_compute in H. injection H as <-. vm_compute in Hret. discriminate. }
  exists s, rs, es, e. split; [reflexivity|]. split; [exact Hret|].
  exact (success_loses_nothing
           [mkOutcome "R0" "E0" None; mkOutcome "R1" "E1" None]
           (one_by_one [1; 0]) s rs es e ltac:(simpl; lia)
           ltac:(repeat constructor) H Hret).
Defined.

(** ** Starting the goroutines: when the loop panics *)

Lemma dispatch_loop_is_Some (roster : list ChaincodeSupport) (inputs : list nat)
    (h : gmap nat ChaincodeInput) (indices : list nat) :
  is_Some (dispatch_loop roster inputs h indices) ↔
  ∀ i, i ∈ indices → is_Some (dispatch_at roster inputs h i).
Proof.
  induction indices as [|j rest IH]; simpl.
  - split; [|by eexists]. intros _ i Hi. by apply elem_of_nil in Hi.
  - split.
    + intros [ts H] i Hi.
      destruct (dispatch_at roster inputs h j) as [t|] eqn:Ht; [|done]. simpl in H.
      destruct (dispatch_loop roster inputs h rest) as [ts'|] eqn:Hts; [|done].
      apply elem_of_cons in Hi as [->|Hi]; [by rewrite Ht|].
      apply IH; [by eexists|done].
    + intros Hall.
      destruct (Hall j) as [t ->]; [left|]. simpl.
      destruct (proj2 IH) as [ts ->]; [|by eexists].
      intros i Hi. apply Hall. by right.
Qed.

Lemma dispatch_at_is_Some (roster : list ChaincodeSupport) (inputs : list nat)
    (h : gmap nat ChaincodeInput) (i : nat) :
  is_Some (dispatch_at roster inputs h i) ↔
  i < length roster ∧
  ∃ p input, inputs !! i = Some p ∧ h !! p = Some input ∧ Args input ≠ [].
Proof.
  unfold dispatch_at, select_support. split.
  - intros [t H].
    destruct (inputs !! i) as [p|] eqn:Hp; [|done]. simpl in H.
    destruct (h !! p) as [input|] eqn:Hh; [|done]. simpl in H.
    destruct (roster !! i) as [s|] eqn:Hs; [|done]. simpl in H.
    assert (Args input ≠ []) as Ha.
    { intros Ha. rewrite Ha in H. simpl in H. done. }
    split; [by eapply lookup_lt_Some|].
    by exists p, input.
  - intros (Hi & p & input & -> & Hp & Ha). simpl. rewrite Hp. simpl.
    destruct (lookup_lt_is_Some_2 roster i Hi) as [s ->]. simpl.
    destruct (Args input) as [|arg0 args]; [done|]. simpl.
    case_bool_decide; simpl; [|by eexists].
    destruct (lookup_lt_is_Some_2 roster (length roster - 1)) as [s' ->]; [lia|].
    by eexists.
Qed.

(** X8: the loop that starts the goroutines runs through without a panic
    exactly when the roster has at least as many backends as the batch has
    inputs, no input is a nil pointer, and every input has at least one
    argument; the test for GetConfigBlock does not spare an input the
    lookup of the backend at its own index. *)
Theorem dispatch_succeeds_iff (roster : list ChaincodeSupport) (inputs : list nat)
    (h : gmap nat ChaincodeInput) :
  is_Some (dispatch roster inputs h) ↔
  length inputs ≤ length roster ∧
  ∀ i p, inputs !! i = Some p → ∃ input, h !! p = Some input ∧ Args input ≠ [].
Proof.
  unfold dispatch. rewrite dispatch_loop_is_Some. split.
  - intros Hall. split.
    + destruct (decide (length inputs = 0)) as [->|Hne]; [lia|].
      destruct (Hall (length inputs - 1)) as [t Ht].
      { apply elem_of_seq. lia. }
      apply mk_is_Some, dispatch_at_is_Some in Ht as [Hlt _]. lia.
    + intros i p Hi.
      destruct (Hall i) as [t Ht].
      { apply elem_of_seq. apply lookup_lt_Some in Hi. lia. }
      apply mk_is_Some, dispatch_at_is_Some in Ht as (_ & q & input & Hq & Hh & Ha).
      rewrite Hi in Hq. injection Hq as <-. by exists input.
  - intros [Hlen Hall] i Hi. apply elem_of_seq in Hi.
    apply dispatch_at_is_Some. split; [lia|].
    destruct (lookup_lt_is_Some_2 inputs i) as [p Hp]; [lia|].
    destruct (Hall i p Hp) as (input & Hh & Ha). by exists p, input.
Qed.

(** ** The call each goroutine makes *)

(** X17: every call [s.Execute(txParams, cccid, inputs[index])] made by a
    goroutine of a batch is determined as follows. Its input is the
    decorated object behind slot [i]; its backend is the last of the roster
    when the first argument of that decorated object is the text
    GetConfigBlock and the one at position [i] otherwise; its context is
    built from the name, the version and the container name of that very
    backend; its [txParams] is the one the decoration pass left. *)
Theorem prepared_call (roster : list ChaincodeSupport)
    (decorators : list Decorator) (txParams : TransactionParams)
    (name version : string) (props : list Proposal) (inputs : list nat)
    (h : gmap nat ChaincodeInput) (st : Decorated) (calls : list BackendCall)
    (i : nat) (call : BackendCall) :
  prepare roster decorators txParams name version props inputs h = Some (st, calls) →
  calls !! i = Some call →
  ∃ p arg0,
    inputs !! i = Some p ∧
    d_store st !! p = Some (bc_input call) ∧
    Args (bc_input call) !! 0 = Some arg0 ∧
    Some (bc_support call)
      = (if bool_decide (string_of_list_byte arg0 = "GetConfigBlock")
         then last roster else roster !! i) ∧
    bc_cccid call = cccid name version (bc_support call) ∧
    bc_txParams call = d_txParams st.
Proof.
  unfold prepare. intros H Hi.
  destruct (decorate decorators props inputs h txParams) as [st0|] eqn:Hd; [|done].
  simpl in H.
  destruct (dispatch roster inputs (d_store st0)) as [tasks|] eqn:Ht; [|done].
  simpl in H.
  destruct (mapM _ tasks) as [cs|] eqn:Hm; [|done].
  simpl in H. injection H as <- <-.
  apply mapM_Some in Hm.
  destruct (Forall2_lookup_r _ _ _ _ _ Hm Hi) as (t & Hti & Hcall).
  pose proof (dispatch_loop_length _ _ _ _ _ Ht) as Hlen.
  rewrite length_seq in Hlen.
  assert (i < length inputs) as Hlt by (apply lookup_lt_Some in Hti; lia).
  assert (tasks !! i = dispatch_at roster inputs (d_store st0) i) as Hdi.
  { eapply dispatch_loop_lookup; [exact Ht|]. by apply lookup_seq. }
  rewrite Hti in Hdi. symmetry in Hdi.
  unfold dispatch_at, select_support in Hdi.
  destruct (inputs !! i) as [p|] eqn:Hp; [|done]. simpl in Hdi.
  destruct (d_store st0 !! p) as [obj|] eqn:Ho; [|done]. simpl in Hdi.
  destruct (roster !! i) as [s|] eqn:Hs; [|done]. simpl in Hdi.
  destruct (Args obj !! 0) as [arg0|] eqn:Ha; [|done]. simpl in Hdi.
  unfold task_call in Hcall.
  assert (t_index t = i ∧
          Some (t_support t)
          = (if bool_decide (string_of_list_byte arg0 = "GetConfigBlock")
             then last roster else Some s)) as [Hidx Hsup].
  { unfold GetConfigBlock in Hdi. case_bool_decide; simpl in Hdi.
    - destruct (roster !! (length roster - 1)) as [s'|] eqn:Hs'; [|done].
      simpl in Hdi. injection Hdi as <-. simpl. split; [done|].
      rewrite last_lookup.
      replace (pred (length roster)) with (length roster - 1) by lia. done.
    - injection Hdi as <-. done. }
  rewrite Hidx, Hp in Hcall. simpl in Hcall. rewrite Ho in Hcall. simpl in Hcall.
  injection Hcall as <-. simpl.
  exists p, arg0. repeat split; try done.
Qed.

Lemma prepared_call_witness :
  ∃ st calls call,
    prepare sample_roster [stamp "a"] sample_txParams "mycc" "1.0"
      sample_props [10; 11] sample_store = Some (st, calls) ∧
    calls !! 1 = Some call ∧
    bc_cccid call = cccid "mycc" "1.0" (bc_support call).
Proof.
  destruct (prepare sample_roster [stamp "a"] sample_txParams "mycc" "1.0"
              sample_props [10; 11] sample_store) as [[st calls]|] eqn:H;
    [|vm_compute in H; discriminate].
  destruct (calls !! 1) as [call|] eqn:Hc.
  2:{ vm_compute in H. injection H as <- <-. discriminate. }
  exists st, calls, call. split; [reflexivity|]. split; [exact Hc|].
  destruct (prepared_call _ _ _ _ _ _ _ _ _ _ 1 call H Hc)
    as (p & arg0 & _ & _ & _ & _ & Hcc & _).
  exact Hcc.
Defined.

(** ** The decoration pass: what it leaves alone, what it leaves behind *)

Lemma decorate_loop_untouched (decorators : list Decorator) (props : list Proposal)
    (inputs : list nat) (indices : list nat) (st st' : Decorated) (p : nat) :
  decorate_loop decorators props inputs indices st = Some st' →
  (∀ i, i ∈ indices → inputs !! i ≠ Some p) →
  d_store st' !! p = d_store st !! p.
Proof.
  revert st. induction indices as [|i rest IH]; intros st H Hp; simpl in H.
  - by injection H as <-.
  - destruct (decorate_at decorators props inputs i st) as [st1|] eqn:H1; [|done].
    simpl in H. rewrite (IH st1 H) by (intros j Hj; apply Hp; by right).
    destruct (decorate_at_inv _ _ _ _ _ _ H1) as (q & obj & proposal & Hq & Ho & Hprop).
    rewrite (decorate_at_Some _ _ _ _ _ _ _ _ Hq Ho Hprop) in H1.
    injection H1 as <-. simpl. apply lookup_insert_ne.
    intros ->. by apply (Hp i); [left|].
Qed.

Lemma decorate_loop_domain (decorators : list Decorator) (props : list Proposal)
    (inputs : list nat) (indices : list nat) (st st' : Decorated) (p : nat) :
  decorate_loop decorators props inputs indices st = Some st' →
  is_Some (d_store st' !! p) ↔ is_Some (d_store st !! p).
Proof.
  revert st. induction indices as [|i rest IH]; intros st H; simpl in H.
  - by injection H as <-.
  - destruct (decorate_at decorators props inputs i st) as [st1|] eqn:H1; [|done].
    simpl in H. rewrite (IH st1 H).
    destruct (decorate_at_inv _ _ _ _ _ _ H1) as (q & obj & proposal & Hq & Ho & Hprop).
    rewrite (decorate_at_Some _ _ _ _ _ _ _ _ Hq Ho Hprop) in H1.
    injection H1 as <-. simpl. destruct (decide (q = p)) as [->|Hne].
    + rewrite lookup_insert_eq, Ho. split; by eexists.
    + by rewrite lookup_insert_ne.
Qed.

(** X9: the decoration pass changes nothing but the objects behind the
    addresses of the batch and [txParams.ProposalDecorations]: an object
    that no slot of [inputs] points at keeps its value, no object appears
    or disappears, [TxID] and [ChannelID] keep their values, and on an empty
    batch nothing changes at all. *)
Theorem decoration_frame (decorators : list Decorator) (props : list Proposal)
    (inputs : list nat) (h : gmap nat ChaincodeInput)
    (txParams : TransactionParams) (st : Decorated) :
  decorate decorators props inputs h txParams = Some st →
  (∀ p, p ∉ inputs → d_store st !! p = h !! p) ∧
  (∀ p, is_Some (d_store st !! p) ↔ is_Some (h !! p)) ∧
  TxID (d_txParams st) = TxID txParams ∧
  ChannelID (d_txParams st) = ChannelID txParams ∧
  (inputs = [] → d_store st = h ∧ d_txParams st = txParams).
Proof.
  unfold decorate. intros H. split; [|split; [|split; [|split]]].
  - intros p Hp. rewrite (decorate_loop_untouched _ _ _ _ _ _ p H); [done|].
    intros i _ Hi. apply Hp. by eapply list_elem_of_lookup_2.
  - intros p. by rewrite (decorate_loop_domain _ _ _ _ _ _ p H).
  - by destruct (decorate_loop_frame _ _ _ _ _ _ H).
  - by destruct (decorate_loop_frame _ _ _ _ _ _ H).
  - intros ->. simpl in H. by injection H as <-.
Qed.

(** The last time the pass goes over an address decides what the object
    behind it carries. *)
Lemma decorate_loop_last_pass (decorators : list Decorator) (props : list Proposal)
    (inputs : list nat) (l1 l2 : list nat) (j p : nat) (st st' : Decorated) :
  decorate_loop decorators props inputs (l1 ++ j :: l2) st = Some st' →
  inputs !! j = Some p →
  (∀ k, k ∈ l2 → inputs !! k ≠ Some p) →
  ∃ st1 obj proposal,
    decorate_loop decorators props inputs l1 st = Some st1 ∧
    d_store st1 !! p = Some obj ∧
    props !! j = Some proposal ∧
    d_store st' !! p
    = Some (decorated_by decorators proposal (length decorators) obj).
Proof.
  intros H Hj Hl2. rewrite decorate_loop_app in H.
  destruct (decorate_loop decorators props inputs l1 st) as [st1|]; [|done].
  simpl in H.
  destruct (decorate_at decorators props inputs j st1) as [st2|] eqn:H2; [|done].
  simpl in H.
  destruct (decorate_at_inv _ _ _ _ _ _ H2) as (q & obj & proposal & Hq & Ho & Hprop).
  rewrite Hj in Hq. injection Hq as <-.
  rewrite (decorate_at_Some _ _ _ _ _ _ _ _ Hj Ho Hprop) in H2. injection H2 as <-.
  exists st1, obj, proposal. split; [done|]. split; [done|]. split; [done|].
  rewrite (decorate_loop_untouched _ _ _ _ _ _ p H Hl2). simpl.
  apply lookup_insert_eq.
Qed.

Lemma seq_split_at (n j : nat) :
  j < n → seq 0 n = seq 0 j ++ j :: seq (S j) (n - S j).
Proof.
  intros Hj. replace n with (j + S (n - S j)) at 1 by lia.
  by rewrite seq_app.
Qed.


Lemma decorate_loop_no_decorators (props : list Proposal) (inputs : list nat)
    (indices : list nat) (st st' : Decorated) :
  decorate_loop [] props inputs indices st = Some st' →
  same_but_decorations (d_store st') (d_store st) ∧ d_calls st' = d_calls st.
Proof.
  revert st. induction indices as [|i rest IH]; intros st H; simpl in H.
  - by injection H as <-.
  - destruct (decorate_at [] props inputs i st) as [st1|] eqn:H1; [|done].
    simpl in H. destruct (IH st1 H) as [Hs Hc].
    destruct (decorate_at_inv _ _ _ _ _ _ H1) as (q & obj & proposal & Hq & Ho & Hprop).
    rewrite (decorate_at_Some _ _ _ _ _ _ _ _ Hq Ho Hprop) in H1.
    injection H1 as <-. simpl in *. split.
    + intros p. rewrite Hs. destruct (decide (q = p)) as [->|Hne].
      * by rewrite lookup_insert_eq, Ho.
      * by rewrite lookup_insert_ne.
    + by rewrite Hc, app_nil_r.
Qed.

(** X11: with no decorator registered the pass still runs over the batch:
    it calls nothing, leaves every input with its arguments and with empty
    decorations, whatever decorations the caller had put there, and, on a
    non-empty batch, leaves [txParams.ProposalDecorations] empty. *)
Theorem no_decorator_registered (props : list Proposal) (inputs : list nat)
    (h : gmap nat ChaincodeInput) (txParams : TransactionParams) (st : Decorated) :
  decorate [] props inputs h txParams = Some st →
  d_calls st = [] ∧
  (∀ p, p ∈ inputs →
     ∃ obj, h !! p = Some obj ∧
            d_store st !! p = Some {| Args := Args obj; Decorations := ∅ |}) ∧
  (inputs ≠ [] → ProposalDecorations (d_txParams st) = ∅).
Proof.
  intros H.
  assert (∀ p, p ∈ inputs →
     ∃ obj, h !! p = Some obj ∧
            d_store st !! p = Some {| Args := Args obj; Decorations := ∅ |}) as Hobj.
  { intros p Hp.
    assert (∃ j, inputs !! j = Some p ∧ ∀ k, j < k → inputs !! k ≠ Some p)
      as (j & Hj & Hlast).
    { clear H. induction inputs as [|q inputs IH]; [by apply elem_of_nil in Hp|].
      destruct (decide (p ∈ inputs)) as [Hin|Hnin].
      - destruct (IH Hin) as (j & Hj & Hlast). exists (S j). split; [done|].
        intros [|k] Hk; [lia|]. simpl. apply Hlast. lia.
      - apply elem_of_cons in Hp as [->|Hp]; [|done].
        exists 0. split; [done|]. intros [|k] Hk; [lia|]. simpl.
        intros Hq. apply Hnin. by eapply list_elem_of_lookup_2. }
    unfold decorate in H.
    assert (j < length inputs) as Hlt by by eapply lookup_lt_Some.
    rewrite (seq_split_at _ _ Hlt) in H.
    destruct (decorate_loop_last_pass _ _ _ _ _ _ _ _ _ H Hj)
      as (st1 & obj1 & proposal & H1 & Ho & Hprop & Hst).
    { intros k Hk. apply elem_of_seq in Hk. apply Hlast. lia. }
    destruct (decorate_loop_no_decorators _ _ _ _ _ H1) as [Hsame _].
    specialize (Hsame p). rewrite Ho in Hsame. simpl in Hsame.
    destruct (h !! p) as [obj|]; [|done].
    exists obj. split; [done|]. rewrite Hst.
    unfold decorated_by. simpl. f_equal.
    change (Some (clear_decorations obj1) = Some (clear_decorations obj)) in Hsame.
    apply (inj Some) in Hsame. unfold clear_decorations in *. congruence. }
  split; [|split; [done|]].
  - unfold decorate in H. by destruct (decorate_loop_no_decorators _ _ _ _ _ H).
  - intros Hne.
    destruct (decorate_leaves_last _ _ _ _ _ _ H Hne) as (p & obj & Hl & Ho & ->).
    destruct (Hobj p) as (obj0 & _ & Ho0); [by apply last_Some_elem_of|].
    rewrite Ho in Ho0. by injection Ho0 as ->.
Qed.

Lemma decoration_frame_witness :
  ∃ st, decorate [stamp "a"] sample_props [10] sample_store sample_txParams = Some st ∧
        d_store st !! 11 = sample_store !! 11 ∧
        TxID (d_txParams st) = "tx1".
Proof.
  destruct (decorate [stamp "a"] sample_props [10] sample_store sample_txParams)
    as [st|] eqn:H; [|vm_compute in H; discriminate].
  exists st. split; [reflexivity|].
  destruct (decoration_frame _ _ _ _ _ _ H) as (Hout & _ & Htx & _).
  split; [|exact Htx].
  apply Hout. intros Hin. apply list_elem_of_singleton in Hin. discriminate.
Defined.


Lemma no_decorator_registered_witness :
  ∃ st, decorate [] sample_props [10; 11] sample_store sample_txParams = Some st ∧
        d_calls st = [] ∧ ProposalDecorations (d_txParams st) = ∅.
Proof.
  destruct (decorate [] sample_props [10; 11] sample_store sample_txParams)
    as [st|] eqn:H; [|vm_compute in H; discriminate].
  exists st. split; [reflexivity|].
  destruct (no_decorator_registered _ _ _ _ _ H) as (Hc & _ & Hd).
  split; [exact Hc|]. apply Hd. discriminate.
Defined.

(** ** [Execute]: when it cannot return *)

Lemma decorate_loop_needs (decorators : list Decorator) (props : list Proposal)
    (inputs : list nat) (indices : list nat) (st st' : Decorated) (i : nat) :
  decorate_loop decorators props inputs indices st = Some st' →
  i ∈ indices →
  i < length props ∧ ∃ p, inputs !! i = Some p ∧ is_Some (d_store st !! p).
Proof.
  revert st. induction indices as [|j rest IH]; intros st H Hi; simpl in H.
  - by apply elem_of_nil in Hi.
  - destruct (decorate_at decorators props inputs j st) as [st1|] eqn:H1; [|done].
    simpl in H.
    apply elem_of_cons in Hi as [->|Hi].
    + destruct (decorate_at_inv _ _ _ _ _ _ H1) as (p & obj & proposal & Hp & Ho & Hprop).
      split; [by eapply lookup_lt_Some|]. exists p. split; [done|by eexists].
    + destruct (IH st1 H Hi) as (Hlt & p & Hp & Hsome).
      split; [done|]. exists p. split; [done|].
      by apply (decorate_loop_domain decorators props inputs [j] st st1 p);
        [simpl; rewrite H1|].
Qed.

Section ExecuteFacts.
Context {Response ChaincodeEvent : Type}.
Variable backend : BackendCall → option (Outcome Response ChaincodeEvent).

(** X6: on an empty batch both loops over [inputs] do nothing, no goroutine
    is started, the collecting loop waits on [cErr] for a value nobody
    sends, and [Execute] returns under no interleaving. *)
Theorem Execute_empty_batch (roster : list ChaincodeSupport)
    (decorators : list Decorator) (txParams : TransactionParams)
    (name version : string) (props : list Proposal) (h : gmap nat ChaincodeInput)
    (sched : list Action) :
  prepare roster decorators txParams name version props [] h
    = Some (mkDecorated h txParams [], []) ∧
  Execute backend roster decorators txParams name version props [] h sched = None.
Proof.
  split; [done|]. unfold Execute. simpl.
  destruct sched as [|[i|] rest]; done.
Qed.

(** X7: [Execute] returns, under whatever interleaving, only if the batch
    is not empty, [props] and the roster are at least as long as [inputs],
    no input is a nil pointer, every input has at least one argument once
    decorated, and every backend call made has returned. *)
Theorem Execute_returns_only_if (roster : list ChaincodeSupport)
    (decorators : list Decorator) (txParams : TransactionParams)
    (name version : string) (props : list Proposal) (inputs : list nat)
    (h : gmap nat ChaincodeInput) (sched : list Action)
    (r : list Response * list ChaincodeEvent * error) :
  Execute backend roster decorators txParams name version props inputs h sched
    = Some r →
  inputs ≠ [] ∧
  length inputs ≤ length props ∧
  length inputs ≤ length roster ∧
  Forall (λ p, is_Some (h !! p)) inputs ∧
  ∃ st calls,
    prepare roster decorators txParams name version props inputs h
      = Some (st, calls) ∧
    Forall (λ p, ∃ obj, d_store st !! p = Some obj ∧ Args obj ≠ []) inputs ∧
    Forall (λ c, is_Some (backend c)) calls.
Proof.
  unfold Execute. intros H.
  destruct (prepare _ _ _ _ _ _ _ _) as [[st calls]|] eqn:Hp; [|done].
  simpl in H.
  destruct (exec _ sched _) as [s|] eqn:Hs; [|done]. simpl in H.
  destruct r as [[rs es] e].
  destruct (returned_exited _ _ _ _ H) as (Hl & _).
  destruct (prepare_calls _ _ _ _ _ _ _ _ _ _ Hp) as (Hd & Hlen & _).
  assert (inputs ≠ []) as Hne.
  { intros ->. simpl in Hs.
    destruct calls; [|done]. simpl in Hs.
    destruct sched as [|[i|] rest]; simpl in Hs; [|done..].
    injection Hs as <-. done. }
  assert (∀ i, i < length inputs →
            i < length props ∧ ∃ p, inputs !! i = Some p ∧ is_Some (h !! p)) as Hdec.
  { intros i Hi. unfold decorate in Hd.
    apply (decorate_loop_needs _ _ _ _ _ _ i Hd). apply elem_of_seq. lia. }
  assert (is_Some (dispatch roster inputs (d_store st))) as Hdisp.
  { unfold prepare in Hp. rewrite Hd in Hp. simpl in Hp.
    destruct (dispatch roster inputs (d_store st)); [by eexists|done]. }
  unfold dispatch in Hdisp. rewrite dispatch_loop_is_Some in Hdisp.
  assert (∀ i, i < length inputs →
            i < length roster ∧
            ∃ p input, inputs !! i = Some p ∧ d_store st !! p = Some input ∧
                       Args input ≠ []) as Hdi.
  { intros i Hi. apply dispatch_at_is_Some, Hdisp, elem_of_seq. lia. }
  split; [done|].
  assert (0 < length inputs) as Hpos by (destruct inputs; [done|simpl; lia]).
  split; [destruct (Hdec (length inputs - 1)); lia|].
  split; [destruct (Hdi (length inputs - 1)); lia|].
  split.
  { apply Forall_lookup. intros i p Hi.
    destruct (Hdec i) as (_ & q & Hq & Hsome); [by eapply lookup_lt_Some|].
    congruence. }
  exists st, calls. split; [done|]. split.
  { apply Forall_lookup. intros i p Hi.
    destruct (Hdi i) as (_ & q & input & Hq & Hin & Ha); [by eapply lookup_lt_Some|].
    exists input. split; [congruence|done]. }
  rewrite <- Hlen, <- (length_fmap backend) in Hs.
  pose proof (exited_needs_answers _ _ _ Hs Hl) as Hall.
  rewrite Forall_fmap in Hall. exact Hall.
Qed.

End ExecuteFacts.

Lemma Execute_returns_only_if_witness :
  ∃ r, Execute sample_backend sample_roster [stamp "a"] sample_txParams "mycc" "1.0"
         sample_props [10; 11] sample_store (one_by_one [0; 1]) = Some r ∧
       length [10; 11] ≤ length sample_props ∧
       length [10; 11] ≤ length sample_roster.
Proof.
  destruct (Execute sample_backend sample_roster [stamp "a"] sample_txParams
              "mycc" "1.0" sample_props [10; 11] sample_store (one_by_one [0; 1]))
    as [r|] eqn:H; [|vm_compute in H; discriminate].
  exists r. split; [reflexivity|].
  destruct (Execute_returns_only_if _ _ _ _ _ _ _ _ _ _ _ H) as (_ & H1 & H2 & _).
  split; [exact H1|exact H2].
Defined.

(** ** [ExecuteLegacyInit] *)

Section LegacyInitFacts.
Context {SignedProposal Result : Type}.
Variable backend_init : LegacyInitCall → Result.

(** X12: [ExecuteLegacyInit] panics on an empty roster and otherwise
    returns what the first backend of the roster answers to [txParams], the
    context made of [name] and [version] as supplied, and [cds]. For a name
    other than cscc and lscc that context is not the one [Execute] hands to
    the same backend, which has the container name appended to the
    version. *)
Theorem legacy_init_version (roster : list ChaincodeSupport)
    (txParams : TransactionParams) (cid name version txid : string)
    (signedProp : option SignedProposal) (prop : option Proposal)
    (cds : option ChaincodeDeploymentSpec) :
  ∃ call : option LegacyInitCall,
    ExecuteLegacyInit backend_init roster txParams cid name version txid
      signedProp prop cds = backend_init <$> call ∧
    lic_support <$> call = roster !! 0 ∧
    (∀ c, call = Some c →
       lic_txParams c = txParams ∧ lic_cds c = cds ∧
       Name (lic_cccid c) = name ∧ Version (lic_cccid c) = version ∧
       (name ≠ "cscc" → name ≠ "lscc" →
        lic_cccid c ≠ cccid name version (lic_support c))).
Proof.
  unfold ExecuteLegacyInit. destruct (roster !! 0) as [s0|] eqn:H0.
  - eexists (Some _). simpl. split; [done|]. split; [done|].
    intros c [= <-]. simpl. repeat split; try done.
    intros H1 H2 [= Hv]. rewrite (version2_ordinary _ _ _ H1 H2) in Hv.
    by apply append_dash_neq in Hv.
  - exists None. simpl. repeat split; done.
Qed.

End LegacyInitFacts.

(** ** The ledger delegations: values and errors *)

Section MoreLedgerFacts.
Context {PeerLedger TxSimulator HistoryQueryExecutor ProcessedTransaction : Type}.
Variable Peer : @PeerOperations PeerLedger TxSimulator HistoryQueryExecutor
                  ProcessedTransaction.


(** X14: on a channel that has a ledger, an error [cause] of the ledger
    comes back as follows, after exactly two calls. [GetTransactionByID]
    and [GetLedgerHeight] drop whatever value the ledger returned beside the
    error and put their own text and a colon in front of [cause];
    [GetTxSimulator] and [GetHistoryQueryExecutor] pass the pair on as it
    is. *)
Theorem ledger_errors (channel txid cause : string) (l : PeerLedger) :
  GetLedger Peer channel = Some l →
  (∀ tx, ledger_GetTransactionByID Peer l txid = (tx, Some cause) →
     run (GetTransactionByID Peer channel txid)
     = Some ((None, Some ("GetTransactionByID failed: " +:+ cause)),
             [CallGetLedger channel; CallGetTransactionByID txid])) ∧
  (∀ info, GetBlockchainInfo Peer l = (info, Some cause) →
     run (GetLedgerHeight Peer channel)
     = Some ((0%N, Some (("failed to obtain information for Channel " +:+ channel)
                         +:+ ": " +:+ cause)),
             [CallGetLedger channel; CallGetBlockchainInfo])) ∧
  (∀ sim, NewTxSimulator Peer l txid = (sim, Some cause) →
     run (GetTxSimulator Peer channel txid)
     = Some ((sim, Some cause), [CallGetLedger channel; CallNewTxSimulator txid])) ∧
  (∀ hqe, NewHistoryQueryExecutor Peer l = (hqe, Some cause) →
     run (GetHistoryQueryExecutor Peer channel)
     = Some ((hqe, Some cause), [CallGetLedger channel; CallNewHistoryQueryExecutor])).
Proof.
  intros Hl.
  unfold run, GetTransactionByID, GetLedgerHeight, GetTxSimulator,
    GetHistoryQueryExecutor, bind, call, ret.
  rewrite Hl. simpl.
  split; [|split; [|split]]; intros x ->; done.
Qed.

End MoreLedgerFacts.

Lemma ledger_errors_witness :
  run (GetTransactionByID failing_peer "mychannel" "tx1")
  = Some ((None, Some "GetTransactionByID failed: no such tx"),
          [CallGetLedger "mychannel"; CallGetTransactionByID "tx1"]).
Proof.
  exact (proj1 (ledger_errors failing_peer "mychannel" "tx1" "no such tx" () eq_refl)
           (Some ()) eq_refl).
Defined.

(** ** Chaincode packages *)

Section PackageFacts.
Context {CCPackage : Type}.
Variable ccprovider : @PackageReader CCPackage.

(** X15: of its argument [GetChaincodeDeploymentSpecFS] uses the chaincode
    name and version only: two deployment specs that agree on them get the
    same answer, which is the spec of the package found on the file system
    under that name and version, or a nil spec with the error of the lookup
    behind the text could not get chaincode from fs. *)
Theorem deployment_spec_is_read_by_name_and_version
    (d1 d2 : ChaincodeDeploymentSpec) (spec1 spec2 : ChaincodeSpec)
    (id1 id2 : ChaincodeID) :
  cds_ChaincodeSpec d1 = Some spec1 → ChaincodeId spec1 = Some id1 →
  cds_ChaincodeSpec d2 = Some spec2 → ChaincodeId spec2 = Some id2 →
  cid_Name id1 = cid_Name id2 → cid_Version id1 = cid_Version id2 →
  GetChaincodeDeploymentSpecFS ccprovider (Some d1)
  = GetChaincodeDeploymentSpecFS ccprovider (Some d2) ∧
  ∀ r e, GetChaincodeDeploymentSpecFS ccprovider (Some d1) = Some (r, e) →
    match GetChaincodeFromFS ccprovider (cid_Name id1) (cid_Version id1) with
    | (_, Some cause) =>
        r = None ∧ e = Some ("could not get chaincode from fs: " +:+ cause)
    | (Some pack, None) => r = GetDepSpec ccprovider pack ∧ e = None
    | (None, None) => False
    end.
Proof.
  intros Hs1 Hi1 Hs2 Hi2 Hn Hv. unfold GetChaincodeDeploymentSpecFS. simpl.
  rewrite Hs1, Hs2. simpl. rewrite Hi1, Hi2. simpl. rewrite <- Hn, <- Hv.
  split; [done|]. intros r e.
  destruct (GetChaincodeFromFS ccprovider (cid_Name id1) (cid_Version id1))
    as [[pack|] [cause|]]; simpl; intros [= <- <-]; done.
Qed.

(** X16: [IsJavaCC] answers true exactly when the package bytes are read
    without an error and the deployment spec inside has the type JAVA, and
    then the error is nil; when the bytes cannot be read it answers false
    together with the reader's error as it is. *)
Theorem IsJavaCC_true_iff (buf : list byte) :
  (∀ e, IsJavaCC ccprovider buf = Some (true, e) ↔
        e = None ∧
        ∃ pack cds spec,
          GetCCPackage ccprovider buf = (Some pack, None) ∧
          GetDepSpec ccprovider pack = Some cds ∧
          cds_ChaincodeSpec cds = Some spec ∧
          cs_Type spec = ChaincodeSpec_JAVA) ∧
  (∀ cause pack, GetCCPackage ccprovider buf = (pack, Some cause) →
        IsJavaCC ccprovider buf = Some (false, Some cause)).
Proof.
  unfold IsJavaCC. split.
  - intros e. destruct (GetCCPackage ccprovider buf) as [ccpack [cause|]].
    { split; [done|]. by intros (_ & pack & cds & spec & [= _] & _). }
    split.
    + intros H. destruct ccpack as [pack|]; [|done]. simpl in H.
      destruct (GetDepSpec ccprovider pack) as [cds|] eqn:Hd; [|done]. simpl in H.
      destruct (cds_ChaincodeSpec cds) as [spec|] eqn:Hs; [|done]. simpl in H.
      injection H as Hj <-. split; [done|].
      exists pack, cds, spec. repeat split; try done.
      by apply bool_decide_eq_true in Hj.
    + intros (-> & pack & cds & spec & [= ->] & Hd & Hs & Hj). simpl.
      rewrite Hd. simpl. rewrite Hs. simpl. by rewrite bool_decide_eq_true_2.
  - intros cause pack ->. done.
Qed.

End PackageFacts.

Lemma deployment_spec_is_read_by_name_and_version_witness :
  GetChaincodeDeploymentSpecFS sample_reader
    (Some (mkChaincodeDeploymentSpec
             (Some (mkChaincodeSpec ChaincodeSpec_GOLANG
                      (Some (mkChaincodeID "a/path" "mycc" "1.0")))) []))
  = GetChaincodeDeploymentSpecFS sample_reader
      (Some (mkChaincodeDeploymentSpec
               (Some (mkChaincodeSpec ChaincodeSpec_NODE
                        (Some (mkChaincodeID "another" "mycc" "1.0"))))
               (list_byte_of_string "code"))).
Proof.
  exact (proj1 (deployment_spec_is_read_by_name_and_version sample_reader
    (mkChaincodeDeploymentSpec
       (Some (mkChaincodeSpec ChaincodeSpec_GOLANG
                (Some (mkChaincodeID "a/path" "mycc" "1.0")))) [])
    (mkChaincodeDeploymentSpec
       (Some (mkChaincodeSpec ChaincodeSpec_NODE
                (Some (mkChaincodeID "another" "mycc" "1.0"))))
       (list_byte_of_string "code"))
    (mkChaincodeSpec ChaincodeSpec_GOLANG (Some (mkChaincodeID "a/path" "mycc" "1.0")))
    (mkChaincodeSpec ChaincodeSpec_NODE (Some (mkChaincodeID "another" "mycc" "1.0")))
    (mkChaincodeID "a/path" "mycc" "1.0") (mkChaincodeID "another" "mycc" "1.0")
    eq_refl eq_refl eq_refl eq_refl eq_refl eq_refl)).
Defined.
